(** * RemovePodsViolatingInterPodAffinity: the quota-bounded eviction loop

    A shallow embedding of the descheduler plugin
    [pkg/framework/plugins/removepodsviolatinginterpodaffinity]:
    [New], [Deschedule] and [SetDefaults_RemovePodsViolatingInterPodAffinityArgs],
    together with the collaborators they call.  Go packages become modules,
    Go interfaces become type classes, Go maps become [gmap]s, and the
    evictor (the only stateful collaborator) is threaded explicitly. *)

From Stdlib Require Import ZArith.
From stdpp Require Import base gmap strings list sorting.

Open Scope string_scope.
Open Scope Z_scope.
Open Scope list_scope.
Open Scope stdpp_scope.

(** ** Kubernetes API objects (package [v1], the fields this plugin reads) *)

(** The QoS tier of a pod, lowest tier first. *)
Inductive QOSClass := BestEffort | Burstable | Guaranteed.

#[global] Instance QOSClass_eq_dec : EqDecision QOSClass.
Proof. solve_decision. Defined.

(** [node.Name], the node's labels and [node.Spec.Unschedulable]. *)
Record Node := {
  Name : string;
  NodeLabels : gmap string string;
  Unschedulable : bool
}.

#[global] Instance Node_eq_dec : EqDecision Node.
Proof. solve_decision. Defined.

(** A pod, as the data model has it: identity (name, namespace), labels,
    the node it is assigned to ([pod.Spec.NodeName]), its declared
    priority (an ordered integer, only ever compared here) and its QoS
    tier. *)
Record Pod := {
  PodName : string;
  Namespace : string;
  Labels : gmap string string;
  NodeName : string;
  Priority : Z;
  QOS : QOSClass
}.

#[global] Instance Pod_eq_dec : EqDecision Pod.
Proof. solve_decision. Defined.

(** ** Go [error] values and [context.Context] *)

(** The dynamic type of an error value; the plugin type-switches on it. *)
Inductive ErrorType :=
  | EvictionNodeLimitError
  | EvictionTotalLimitError
  | OtherErrorType (type_name : string).

#[global] Instance ErrorType_eq_dec : EqDecision ErrorType.
Proof. solve_decision. Defined.

(** A non-nil error: its dynamic type and what [Error()] prints.  A nil
    error is [None : option error]. *)
Record error := {
  err_type : ErrorType;
  Error : string
}.

#[global] Instance error_eq_dec : EqDecision error.
Proof. solve_decision. Defined.

(** [fmt.Errorf] without a wrapping verb: a plain error string. *)
Definition fmt_Errorf (msg : string) : error :=
  {| err_type := OtherErrorType "*errors.errorString"; Error := msg |}.

(** The invocation context; [Done] tells whether it has been cancelled. *)
Record Context := { Done : bool }.

(** ** Package [metav1]: label selectors *)

Module metav1.

Record LabelSelectorRequirement := {
  Key : string;
  Operator : string;
  Values : list string
}.

Record LabelSelector := {
  MatchLabels : gmap string string;
  MatchExpressions : list LabelSelectorRequirement
}.

(** [LabelSelectorAsSelector] belongs to the Kubernetes API machinery: it
    turns a selector into a predicate on label sets, or fails on a
    malformed one.  An operation of the environment. *)
Class SelectorConversion := {
  LabelSelectorAsSelector :
    LabelSelector → (gmap string string → bool) * option error
}.

End metav1.

(** ** Package [evictions] *)

Module evictions.

Record EvictOptions := { StrategyName : string }.

#[global] Instance EvictOptions_eq_dec : EqDecision EvictOptions.
Proof. solve_decision. Defined.

End evictions.

(** ** Package [podutil] *)

Module podutil.

(** A [FilterFunc] value may be nil: it is passed around as
    [option FilterFunc]. *)
Definition FilterFunc := Pod → bool.

Definition GetPodsAssignedToNodeFunc :=
  string → option FilterFunc → list Pod * option error.

(** [ListPodsOnNodes] lists the candidate pods of the given nodes through
    the handle's function and the plugin's filter, and may fail.  An
    operation of the environment. *)
Class Lister := {
  ListPodsOnNodes :
    list Node → GetPodsAssignedToNodeFunc → option FilterFunc →
    list Pod * option error
}.

(** Go's [m[k]] on a map of slices: a missing key reads as the nil slice. *)
Definition bucket (m : gmap string (list Pod)) (k : string) : list Pod :=
  default [] (m !! k).

(** Modelled from the spec: [GroupByNamespace] is absent from the sources;
    the Pod Classifier maps each namespace to the list of candidate pods
    in that namespace, in input order. *)
Definition GroupByNamespace (pods : list Pod) : gmap string (list Pod) :=
  foldl (λ m pod, <[Namespace pod := bucket m (Namespace pod) ++ [pod]]> m) ∅ pods.

(** Modelled from the spec: [GroupByNodeName] is absent from the sources;
    the Pod Classifier maps each node name to the list of candidate pods
    scheduled on that node, in input order. *)
Definition GroupByNodeName (pods : list Pod) : gmap string (list Pod) :=
  foldl (λ m pod, <[NodeName pod := bucket m (NodeName pod) ++ [pod]]> m) ∅ pods.

(** The tier of a QoS class: best-effort before burstable before
    guaranteed. *)
Definition qos_tier (q : QOSClass) : Z :=
  match q with BestEffort => 0 | Burstable => 1 | Guaranteed => 2 end.

(** [pod_leb p q]: [p] may be visited no later than [q], that is, [p] has
    the lower priority, or the same priority and no higher QoS tier. *)
Definition pod_leb (p q : Pod) : bool :=
  (Priority p <? Priority q) ||
  ((Priority p =? Priority q) && (qos_tier (QOS p) <=? qos_tier (QOS q))).

Definition pod_le (p q : Pod) : Prop := pod_leb p q = true.


Fixpoint insert_pod (p : Pod) (l : list Pod) : list Pod :=
  match l with
  | [] => [p]
  | q :: l' => if pod_leb p q then p :: q :: l' else q :: insert_pod p l'
  end.

(** Modelled from the spec: [SortPodsBasedOnPriorityLowToHigh] is absent
    from the sources; the Priority Orderer orders a node's pods ascending
    by priority, equal priorities by ascending QoS tier, and is stable on
    ties.  Here: a stable insertion sort.  The Go function returns nothing
    and sorts the slice it is given; the caller stores the result back
    (see [sort_in_place] below). *)
Fixpoint SortPodsBasedOnPriorityLowToHigh (pods : list Pod) : list Pod :=
  match pods with
  | [] => []
  | p :: l => insert_pod p (SortPodsBasedOnPriorityLowToHigh l)
  end.








End podutil.

(** ** Package [frameworktypes] *)

Module frameworktypes.

(** [*Status]: a nil status is [None : option Status]. *)
Record Status := { Err : option error }.

(** The [Evictor] interface.  [E] is the state behind the interface (the
    budget counters and whatever else the implementation keeps); the two
    admission checks read it, [Evict] may change it. *)
Class Evictor (E : Type) := {
  Filter : E → Pod → bool;
  PreEvictionFilter : E → Pod → bool;
  Evict : Context → Pod → evictions.EvictOptions → E → E * option error
}.

(** The [Handle] given to a plugin.  [Evictor()] hands out the evictor,
    whose state is threaded through [Deschedule] as a value of [E]. *)
Record Handle := {
  GetPodsAssignedToNodeFunc : podutil.GetPodsAssignedToNodeFunc
}.

End frameworktypes.

(** ** Package [utils] *)

Module utils.

(** Modelled from the spec: [CreateNodeMap] is absent from the sources; it
    builds the lookup table from node name to node. *)
Definition CreateNodeMap (nodes : list Node) : gmap string Node :=
  foldl (λ m node, <[Name node := node]> m) ∅ nodes.

(** The Affinity Oracle, an operation of the environment: a pure
    predicate of the pod, the namespace grouping and the node map. *)
Class AffinityOracle := {
  CheckPodAffinityViolation :
    Pod → gmap string (list Pod) → gmap string Node → bool
}.

End utils.

(** ** Package [api] *)

Module api.

Record Namespaces := {
  Include : list string;
  Exclude : list string
}.

End api.

(** ** The plugin: arguments, defaulting, validation *)

Definition PluginName : string := "RemovePodsViolatingInterPodAffinity".

Record RemovePodsViolatingInterPodAffinityArgs := {
  Namespaces : option api.Namespaces;
  LabelSelector : option metav1.LabelSelector
}.

(** A [runtime.Object]: either the arguments of this plugin or an object of
    some other type. *)
Inductive runtime_Object :=
  | ArgsObject (a : RemovePodsViolatingInterPodAffinityArgs)
  | OtherObject (type_name : string).

Definition set_Namespaces (v : option api.Namespaces)
    (a : RemovePodsViolatingInterPodAffinityArgs) : RemovePodsViolatingInterPodAffinityArgs :=
  {| Namespaces := v; LabelSelector := LabelSelector a |}.

Definition set_LabelSelector (v : option metav1.LabelSelector)
    (a : RemovePodsViolatingInterPodAffinityArgs) : RemovePodsViolatingInterPodAffinityArgs :=
  {| Namespaces := Namespaces a; LabelSelector := v |}.

(** [SetDefaults_RemovePodsViolatingInterPodAffinityArgs] updates the object
    behind the pointer; here it returns the updated object.  The unchecked
    type assertion panics on an object of another type: [None]. *)
Definition SetDefaults_RemovePodsViolatingInterPodAffinityArgs (obj : runtime_Object)
    : option runtime_Object :=
  match obj with
  | ArgsObject args =>
      let args :=
        match Namespaces args with
        | None => set_Namespaces None args
        | Some _ => args
        end in
      let args :=
        match LabelSelector args with
        | None => set_LabelSelector None args
        | Some _ => args
        end in
      Some (ArgsObject args)
  | OtherObject _ => None
  end.

(** Modelled from the spec: [ValidateRemovePodsViolatingInterPodAffinityArgs]
    is absent from the sources (its test is present); an include set and an
    exclude set given together are a configuration error, and so is a
    malformed label selector. *)
Definition ValidateRemovePodsViolatingInterPodAffinityArgs `{!metav1.SelectorConversion}
    (args : RemovePodsViolatingInterPodAffinityArgs) : option error :=
  match Namespaces args with
  | Some ns =>
      if bool_decide (api.Include ns ≠ [] ∧ api.Exclude ns ≠ []) then
        Some (fmt_Errorf "only one of Include/Exclude namespaces can be set")
      else
        match LabelSelector args with
        | Some ls => snd (metav1.LabelSelectorAsSelector ls)
        | None => None
        end
  | None =>
      match LabelSelector args with
      | Some ls => snd (metav1.LabelSelectorAsSelector ls)
      | None => None
      end
  end.

(** [RemovePodsViolatingInterPodAffinity], the plugin object. *)
Record RemovePodsViolatingInterPodAffinity := {
  handle : frameworktypes.Handle;
  args : RemovePodsViolatingInterPodAffinityArgs;
  podFilter : option podutil.FilterFunc
}.



(** [Name] retrieves the plugin name. *)
Definition Plugin_Name (d : RemovePodsViolatingInterPodAffinity) : string := PluginName.

(** ** [Deschedule] *)

(** What a run can be observed to do, in order: it starts on a node, it asks
    the oracle about a pod, it calls [Evict] on a pod and gets an outcome. *)
Inductive Event :=
  | ProcessingNode (node : Node)
  | CheckAffinity (pod : Pod)
  | EvictCall (pod : Pod) (opts : evictions.EvictOptions) (outcome : option error).

#[global] Instance Event_eq_dec : EqDecision Event.
Proof. solve_decision. Defined.

(** The data structures a run works on: the caller's node slice and the
    locals of [Deschedule].  The slices in [podsOnANode] are the ones the
    per-node ordering step works on. *)
Record Memory := {
  nodes : list Node;
  pods : list Pod;
  podsInANamespace : gmap string (list Pod);
  podsOnANode : gmap string (list Pod);
  nodeMap : gmap string Node
}.

(** [pods := podsOnANode[node.Name]] followed by
    [podutil.SortPodsBasedOnPriorityLowToHigh(pods)]: the local slice shares
    its elements with the map's slice, so the map's slice is what gets
    sorted.  For a missing key the local slice is nil and nothing is
    stored. *)
Definition sort_in_place (name : string) (m : Memory) : Memory :=
  match podsOnANode m !! name with
  | Some l =>
      {| nodes := nodes m;
         pods := pods m;
         podsInANamespace := podsInANamespace m;
         podsOnANode := <[name := podutil.SortPodsBasedOnPriorityLowToHigh l]> (podsOnANode m);
         nodeMap := nodeMap m |}
  | None => m
  end.

(** The memory once the groupings and the node map have been built. *)
Definition build_memory (nodes : list Node) (pods : list Pod) : Memory :=
  {| nodes := nodes;
     pods := pods;
     podsInANamespace := podutil.GroupByNamespace pods;
     podsOnANode := podutil.GroupByNodeName pods;
     nodeMap := utils.CreateNodeMap nodes |}.

(** The memory after the ordering step has run for the nodes [visited]. *)
Definition sorted_upto (visited : list Node) (m : Memory) : Memory :=
  foldl (λ m node, sort_in_place (Name node) m) m visited.

(** How the inner loop over a node's pods ends. *)
Inductive Flow :=
  | LoopDone        (* the loop condition became false *)
  | ContinueLoop    (* [continue loop] *)
  | ReturnNil.      (* [return nil] *)

Section Deschedule.

Context {E : Type} `{!frameworktypes.Evictor E} `{!utils.AffinityOracle}.

(** The inner loop, [for i := 0; i < totalPods; i++], over the pods from
    index [i] on. *)
Fixpoint scan_pods (ctx : Context)
    (podsInANamespace : gmap string (list Pod)) (nodeMap : gmap string Node)
    (pods : list Pod) (e : E) : Flow * E * list Event :=
  match pods with
  | [] => (LoopDone, e, [])
  | pod :: rest =>
      if utils.CheckPodAffinityViolation pod podsInANamespace nodeMap then
        if frameworktypes.Filter e pod && frameworktypes.PreEvictionFilter e pod then
          let '(e1, err) :=
            frameworktypes.Evict ctx pod {| evictions.StrategyName := PluginName |} e in
          match err_type <$> err with
          | Some EvictionNodeLimitError =>
              (ContinueLoop, e1,
               [CheckAffinity pod; EvictCall pod {| evictions.StrategyName := PluginName |} err])
          | Some EvictionTotalLimitError =>
              (ReturnNil, e1,
               [CheckAffinity pod; EvictCall pod {| evictions.StrategyName := PluginName |} err])
          | _ =>
              let '(flow, e2, t) := scan_pods ctx podsInANamespace nodeMap rest e1 in
              (flow, e2,
               CheckAffinity pod
                 :: EvictCall pod {| evictions.StrategyName := PluginName |} err :: t)
          end
        else
          let '(flow, e1, t) := scan_pods ctx podsInANamespace nodeMap rest e in
          (flow, e1, CheckAffinity pod :: t)
      else
        let '(flow, e1, t) := scan_pods ctx podsInANamespace nodeMap rest e in
        (flow, e1, CheckAffinity pod :: t)
  end.

(** The outer loop, [for _, node := range nodes], over the nodes still to
    be visited.  Both ways out of it ([return nil] inside, [return nil]
    after it) return a nil status, so only the memory, the evictor and
    the trace are returned here. *)
Fixpoint node_loop (ctx : Context) (todo : list Node) (m : Memory) (e : E)
    : Memory * E * list Event :=
  match todo with
  | [] => (m, e, [])
  | node :: rest =>
      let m1 := sort_in_place (Name node) m in
      let pods := podutil.bucket (podsOnANode m1) (Name node) in
      let '(flow, e1, t) := scan_pods ctx (podsInANamespace m1) (nodeMap m1) pods e in
      match flow with
      | ReturnNil => (m1, e1, ProcessingNode node :: t)
      | ContinueLoop | LoopDone =>
          let '(m2, e2, t2) := node_loop ctx rest m1 e1 in
          (m2, e2, ProcessingNode node :: t ++ t2)
      end
  end.

(** What a call of [Deschedule] leaves behind. *)
Record Run := {
  status : option frameworktypes.Status;
  memory : Memory;
  evictor : E;
  trace : list Event
}.

Context `{!podutil.Lister}.

(** [Deschedule].  When listing fails the groupings are never built: they
    are left empty in the memory returned. *)
Definition Deschedule (d : RemovePodsViolatingInterPodAffinity)
    (ctx : Context) (nodes : list Node) (e : E) : Run :=
  let '(pods, err) :=
    podutil.ListPodsOnNodes nodes
      (frameworktypes.GetPodsAssignedToNodeFunc (handle d)) (podFilter d) in
  match err with
  | Some err =>
      {| status :=
           Some {| frameworktypes.Err :=
                     Some (fmt_Errorf ("error listing all pods: " +:+ Error err)) |};
         memory := {| nodes := nodes; pods := pods; podsInANamespace := ∅;
                      podsOnANode := ∅; nodeMap := ∅ |};
         evictor := e;
         trace := [] |}
  | None =>
      let '(m', e', t) := node_loop ctx nodes (build_memory nodes pods) e in
      {| status := None; memory := m'; evictor := e'; trace := t |}
  end.

End Deschedule.

Arguments Run : clear implicits.

(** ** Reading a trace *)

(** The pods the oracle was asked about, in order. *)
Definition checked (t : list Event) : list Pod :=
  omap (λ ev, match ev with CheckAffinity p => Some p | _ => None end) t.

(** The pods [Evict] was called on, in order. *)
Definition evicted (t : list Event) : list Pod :=
  omap (λ ev, match ev with EvictCall p _ _ => Some p | _ => None end) t.

(** The nodes the outer loop started on, in order. *)
Definition processed (t : list Event) : list Node :=
  omap (λ ev, match ev with ProcessingNode n => Some n | _ => None end) t.

(** Every pod in the slice stored under a node name is assigned to that
    node. *)
Definition keyed_by_node (m : gmap string (list Pod)) : Prop :=
  ∀ k p, p ∈ podutil.bucket m k → NodeName p = k.

(** ** A cluster to run on: the objects of [TestInterPodAffinity] *)

Module fixture.

Definition region (r : string) : gmap string string := {[ "region" := r ]}.

Definition node1 : Node :=
  {| Name := "n1"; NodeLabels := region "main-region"; Unschedulable := false |}.
Definition node2 : Node :=
  {| Name := "n2"; NodeLabels := region "main-region"; Unschedulable := false |}.
Definition node3 : Node :=
  {| Name := "n3"; NodeLabels := region "main-region"; Unschedulable := false |}.
Definition node4 : Node :=
  {| Name := "n4"; NodeLabels := region "south"; Unschedulable := false |}.

Definition BuildTestPod (name node : string) (labels : gmap string string)
    (priority : Z) : Pod :=
  {| PodName := name; Namespace := "default"; Labels := labels;
     NodeName := node; Priority := priority; QOS := Burstable |}.

Definition p1 : Pod := BuildTestPod "p1" "n1" {[ "foo" := "bar" ]} 0.
Definition p2 : Pod := BuildTestPod "p2" "n2" {[ "foo" := "bar" ]} 0.
Definition p3 : Pod := BuildTestPod "p3" "n3" {[ "foo" := "bar" ]} 0.
Definition p4 : Pod := BuildTestPod "p4" "n4" ∅ 0.
Definition p5 : Pod := BuildTestPod "p5" "n4" ∅ 100.
(** Two more pods, in need of a [foo=bar] neighbour on their nodes. *)
Definition q1 : Pod := BuildTestPod "q1" "n1" ∅ 0.
Definition q2 : Pod := BuildTestPod "q2" "n2" ∅ 0.

(** An oracle for these pods: the pods without the label [foo] ask for a
    [foo=bar] neighbour and have none. *)
#[global] Instance oracle : utils.AffinityOracle :=
  {| utils.CheckPodAffinityViolation pod _ _ := bool_decide (Labels pod !! "foo" = None) |}.

(** A budget-keeping evictor in the manner of the test's [PodEvictor]:
    three optional limits and the counts so far. *)
Record PodEvictor := {
  maxPodsToEvictPerNode : option nat;
  maxPodsToEvictPerNamespace : option nat;
  maxPodsToEvictTotal : option nat;
  nodePodCount : gmap string nat;
  namespacePodCount : gmap string nat;
  totalPodCount : nat
}.

Definition over (limit : option nat) (count : nat) : bool :=
  match limit with
  | Some n => bool_decide (n < count + 1)%nat
  | None => false
  end.

Definition count_of (m : gmap string nat) (k : string) : nat := default 0%nat (m !! k).

Definition limit_error (T : ErrorType) (msg : string) : option error :=
  Some {| err_type := T; Error := msg |}.

Definition EvictPod (ctx : Context) (pod : Pod) (opts : evictions.EvictOptions)
    (pe : PodEvictor) : PodEvictor * option error :=
  if Done ctx then
    (pe, Some (fmt_Errorf "context canceled"))
  else if over (maxPodsToEvictTotal pe) (totalPodCount pe) then
    (pe, limit_error EvictionTotalLimitError "total limit reached")
  else if over (maxPodsToEvictPerNode pe) (count_of (nodePodCount pe) (NodeName pod)) then
    (pe, limit_error EvictionNodeLimitError "node limit reached")
  else if over (maxPodsToEvictPerNamespace pe)
               (count_of (namespacePodCount pe) (Namespace pod)) then
    (pe, limit_error (OtherErrorType "*evictions.EvictionNamespaceLimitError")
           "namespace limit reached")
  else
    ({| maxPodsToEvictPerNode := maxPodsToEvictPerNode pe;
        maxPodsToEvictPerNamespace := maxPodsToEvictPerNamespace pe;
        maxPodsToEvictTotal := maxPodsToEvictTotal pe;
        nodePodCount :=
          <[NodeName pod := S (count_of (nodePodCount pe) (NodeName pod))]> (nodePodCount pe);
        namespacePodCount :=
          <[Namespace pod := S (count_of (namespacePodCount pe) (Namespace pod))]>
            (namespacePodCount pe);
        totalPodCount := S (totalPodCount pe) |},
     None).

(** System-critical pods are not evictable. *)
Definition SystemCriticalPriority : Z := 2000000000.

#[global] Instance pod_evictor : frameworktypes.Evictor PodEvictor :=
  {| frameworktypes.Filter _ pod := Priority pod <? SystemCriticalPriority;
     frameworktypes.PreEvictionFilter _ _ := true;
     frameworktypes.Evict := EvictPod |}.

Definition NewPodEvictor (perNode perNamespace total : option nat) : PodEvictor :=
  {| maxPodsToEvictPerNode := perNode;
     maxPodsToEvictPerNamespace := perNamespace;
     maxPodsToEvictTotal := total;
     nodePodCount := ∅; namespacePodCount := ∅; totalPodCount := 0 |}.

(** Listing: ask the handle's function node by node, stop at the first
    error. *)
Fixpoint list_pods (nodes : list Node) (get : podutil.GetPodsAssignedToNodeFunc)
    (f : option podutil.FilterFunc) : list Pod * option error :=
  match nodes with
  | [] => ([], None)
  | node :: rest =>
      match get (Name node) f with
      | (_, Some err) => ([], Some err)
      | (l, None) =>
          match list_pods rest get f with
          | (_, Some err) => ([], Some err)
          | (l', None) => (l ++ l', None)
          end
      end
  end.

#[global] Instance lister : podutil.Lister := {| podutil.ListPodsOnNodes := list_pods |}.

(** A handle over a fixed set of pods, and one whose informer fails. *)
Definition handle_over (all : list Pod) : frameworktypes.Handle :=
  {| frameworktypes.GetPodsAssignedToNodeFunc name f :=
       (filter (λ p, NodeName p = name ∧ default (λ _, true) f p = true) all, None) |}.

Definition broken_handle : frameworktypes.Handle :=
  {| frameworktypes.GetPodsAssignedToNodeFunc _ _ :=
       ([], Some (fmt_Errorf "informer not synced")) |}.

(** Selectors: a requirement with operator [In] needs values; a valid
    selector matches the label sets that contain its [MatchLabels]. *)
#[global] Instance selectors : metav1.SelectorConversion :=
  {| metav1.LabelSelectorAsSelector ls :=
       if forallb (λ r, negb (String.eqb (metav1.Operator r) "In")
                        || negb (bool_decide (metav1.Values r = [])))
                  (metav1.MatchExpressions ls)
       then (λ labels, bool_decide (metav1.MatchLabels ls ⊆ labels), None)
       else (λ _, false, Some (fmt_Errorf "values: Invalid value: for 'in' operator, values set can't be empty")) |}.

Definition plugin (all : list Pod) : RemovePodsViolatingInterPodAffinity :=
  {| handle := handle_over all;
     args := {| Namespaces := None; LabelSelector := None |};
     podFilter := None |}.

Definition broken_plugin : RemovePodsViolatingInterPodAffinity :=
  {| handle := broken_handle;
     args := {| Namespaces := None; LabelSelector := None |};
     podFilter := None |}.

Definition background : Context := {| Done := false |}.
Definition cancelled : Context := {| Done := true |}.

Definition opts : evictions.EvictOptions := {| evictions.StrategyName := PluginName |}.

Definition total_limit_reached : error :=
  {| err_type := EvictionTotalLimitError; Error := "total limit reached" |}.
Definition node_limit_reached : error :=
  {| err_type := EvictionNodeLimitError; Error := "node limit reached" |}.

(** An evictor that allows one eviction per node and has already evicted
    one pod from [n2]. *)
Definition n2_used_up : PodEvictor :=
  {| maxPodsToEvictPerNode := Some 1%nat;
     maxPodsToEvictPerNamespace := None;
     maxPodsToEvictTotal := None;
     nodePodCount := {[ "n2" := 1%nat ]};
     namespacePodCount := ∅;
     totalPodCount := 1 |}.

(** The arguments of the validation test. *)
Definition include_only : RemovePodsViolatingInterPodAffinityArgs :=
  {| Namespaces := Some {| api.Include := ["default"]; api.Exclude := [] |};
     LabelSelector := None |}.
Definition include_and_exclude : RemovePodsViolatingInterPodAffinityArgs :=
  {| Namespaces :=
       Some {| api.Include := ["default"]; api.Exclude := ["kube-system"] |};
     LabelSelector := None |}.
Definition good_selector : RemovePodsViolatingInterPodAffinityArgs :=
  {| Namespaces := None;
     LabelSelector :=
       Some {| metav1.MatchLabels := {[ "role.kubernetes.io/node" := "" ]};
               metav1.MatchExpressions := [] |} |}.
Definition bad_selector : RemovePodsViolatingInterPodAffinityArgs :=
  {| Namespaces := None;
     LabelSelector :=
       Some {| metav1.MatchLabels := ∅;
               metav1.MatchExpressions :=
                 [ {| metav1.Key := ""; metav1.Operator := "In";
                      metav1.Values := [] |} ] |} |}.

End fixture.


(** ** The inner loop as a relation *)

Section Scans.

Context {E : Type} `{!frameworktypes.Evictor E} `{!utils.AffinityOracle}.

(** The pod is flagged by the oracle and passes both admission checks. *)
Definition attempted (ns : gmap string (list Pod)) (nm : gmap string Node)
    (e : E) (pod : Pod) : bool :=
  utils.CheckPodAffinityViolation pod ns nm
  && (frameworktypes.Filter e pod && frameworktypes.PreEvictionFilter e pod).

(** The control flow a limit outcome leads to. *)
Definition flow_of (T : ErrorType) : Flow :=
  match T with
  | EvictionNodeLimitError => ContinueLoop
  | EvictionTotalLimitError => ReturnNil
  | OtherErrorType _ => LoopDone
  end.

Definition is_limit (err : option error) : Prop :=
  err_type <$> err = Some EvictionNodeLimitError
  ∨ err_type <$> err = Some EvictionTotalLimitError.

(** [scans ctx ns nm pods e flow e' t]: the inner loop over [pods], started
    with the evictor in state [e], ends with [flow], leaves the evictor in
    state [e'] and produces the trace [t]. *)
Inductive scans (ctx : Context) (ns : gmap string (list Pod)) (nm : gmap string Node)
    : list Pod → E → Flow → E → list Event → Prop :=
  | scans_done e :
      scans ctx ns nm [] e LoopDone e []
  | scans_skip pod rest e flow e' t :
      attempted ns nm e pod = false →
      scans ctx ns nm rest e flow e' t →
      scans ctx ns nm (pod :: rest) e flow e' (CheckAffinity pod :: t)
  | scans_limit pod rest e e1 err :
      attempted ns nm e pod = true →
      frameworktypes.Evict ctx pod {| evictions.StrategyName := PluginName |} e
        = (e1, Some err) →
      is_limit (Some err) →
      scans ctx ns nm (pod :: rest) e (flow_of (err_type err)) e1
        [CheckAffinity pod;
         EvictCall pod {| evictions.StrategyName := PluginName |} (Some err)]
  | scans_next pod rest e e1 err flow e' t :
      attempted ns nm e pod = true →
      frameworktypes.Evict ctx pod {| evictions.StrategyName := PluginName |} e
        = (e1, err) →
      ¬ is_limit err →
      scans ctx ns nm rest e1 flow e' t →
      scans ctx ns nm (pod :: rest) e flow e'
        (CheckAffinity pod
           :: EvictCall pod {| evictions.StrategyName := PluginName |} err :: t).

End Scans.

(** ** Reading a trace back *)

Section Replay.

Context {E : Type} `{!frameworktypes.Evictor E}.

(** [replay ctx t e] makes the [Evict] calls recorded in [t], in order,
    starting with the evictor in state [e].  It gives the state the evictor
    ends in, or [None] when a call does not return the outcome recorded. *)
Fixpoint replay (ctx : Context) (t : list Event) (e : E) : option E :=
  match t with
  | [] => Some e
  | EvictCall pod o r :: t' =>
      let '(e1, r') := frameworktypes.Evict ctx pod o e in
      if decide (r' = r) then replay ctx t' e1 else None
  | _ :: t' => replay ctx t' e
  end.

End Replay.

(** The last thing recorded is an [Evict] call that returned the total-limit
    error. *)
Definition ends_on_total_limit (t : list Event) : bool :=
  match last t with
  | Some (EvictCall _ _ (Some err)) => bool_decide (err_type err = EvictionTotalLimitError)
  | _ => false
  end.

#[global] Instance Flow_eq_dec : EqDecision Flow.
Proof. solve_decision. Defined.

(** ** A scripted evictor *)

Module scripted.

(** An evictor that admits every pod and answers the calls of [Evict] from a
    script, one outcome per call and nil once the script has run out; it
    looks neither at the context nor at the pod. *)
Record Script := { outcomes : list (option error) }.

Definition next_outcome (s : Script) : Script * option error :=
  match outcomes s with
  | [] => (s, None)
  | r :: rest => ({| outcomes := rest |}, r)
  end.

(** A handle whose function returns the same pods whatever node it is
    asked about. *)
Definition handle_any (all : list Pod) : frameworktypes.Handle :=
  {| frameworktypes.GetPodsAssignedToNodeFunc _ _ := (all, None) |}.

(** A plugin whose handle lists [p4] and [p5], pods of [n4], whatever node
    is asked about. *)
Definition stray_plugin : RemovePodsViolatingInterPodAffinity :=
  {| handle := handle_any [fixture.p4; fixture.p5];
     args := {| Namespaces := None; LabelSelector := None |};
     podFilter := None |}.

Definition evictor : frameworktypes.Evictor Script :=
  {| frameworktypes.Filter _ _ := true;
     frameworktypes.PreEvictionFilter _ _ := true;
     frameworktypes.Evict _ _ _ := next_outcome |}.

End scripted.

(** * Properties *)

(** ** The Priority Orderer *)

Section Orderer.

Import podutil.

Lemma pod_le_spec p q :
  pod_le p q ↔
  Priority p < Priority q
  ∨ (Priority p = Priority q ∧ qos_tier (QOS p) ≤ qos_tier (QOS q)).
Proof. unfold pod_le, pod_leb. lia. Qed.

Lemma pod_le_total p q : pod_leb p q = false → pod_le q p.
Proof. rewrite pod_le_spec. unfold pod_leb. lia. Qed.

#[local] Instance pod_le_trans : Transitive pod_le.
Proof. intros p q r. rewrite !pod_le_spec. lia. Qed.



Lemma insert_pod_perm p l : insert_pod p l ≡ₚ p :: l.
Proof.
  induction l as [|q l IH]; simpl; [done|].
  destruct (pod_leb p q); [done|].
  rewrite IH. apply Permutation_swap.
Qed.

Lemma Sort_perm l : SortPodsBasedOnPriorityLowToHigh l ≡ₚ l.
Proof.
  induction l as [|p l IH]; simpl; [done|].
  by rewrite insert_pod_perm, IH.
Qed.

Lemma insert_pod_sorted p l :
  StronglySorted pod_le l → StronglySorted pod_le (insert_pod p l).
Proof.
  induction 1 as [|q l Hl IH Hq]; simpl.
  - repeat constructor.
  - destruct (pod_leb p q) eqn:Hpq.
    + constructor; [by constructor|].
      constructor; [done|].
      eapply Forall_impl; [exact Hq|]. intros r Hr. by transitivity q.
    + constructor; [done|].
      rewrite insert_pod_perm. constructor; [|done].
      by apply pod_le_total.
Qed.

Lemma Sort_sorted l : StronglySorted pod_le (SortPodsBasedOnPriorityLowToHigh l).
Proof.
  induction l; simpl; [constructor|]. by apply insert_pod_sorted.
Qed.

Lemma insert_pod_head p l : Forall (pod_le p) l → insert_pod p l = p :: l.
Proof.
  destruct 1 as [|q l Hq _]; simpl; [done|].
  unfold pod_le in Hq. by rewrite Hq.
Qed.

(** Sorting a sorted slice changes nothing. *)
Lemma Sort_fixed l :
  StronglySorted pod_le l → SortPodsBasedOnPriorityLowToHigh l = l.
Proof.
  induction 1 as [|p l _ IH Hp]; simpl; [done|].
  rewrite IH. by apply insert_pod_head.
Qed.

Lemma Sort_idemp l :
  SortPodsBasedOnPriorityLowToHigh (SortPodsBasedOnPriorityLowToHigh l)
  = SortPodsBasedOnPriorityLowToHigh l.
Proof. apply Sort_fixed, Sort_sorted. Qed.



End Orderer.

(** ** The Pod Classifier and the in-place ordering step *)

Section Grouping.

Import podutil.

Lemma bucket_insert (m : gmap string (list Pod)) k k' l :
  bucket (<[k := l]> m) k' = if decide (k = k') then l else bucket m k'.
Proof.
  unfold bucket. rewrite lookup_insert. by destruct (decide (k = k')).
Qed.

Lemma GroupByNodeName_from (m : gmap string (list Pod)) l k :
  bucket (foldl (λ m pod, <[NodeName pod := bucket m (NodeName pod) ++ [pod]]> m) m l) k
  = bucket m k ++ filter (λ p, NodeName p = k) l.
Proof.
  revert m. induction l as [|p l IH]; intros m; simpl.
  - by rewrite app_nil_r.
  - rewrite IH, bucket_insert, filter_cons.
    destruct (decide (NodeName p = k)) as [->|]; [|done].
    by rewrite <-app_assoc.
Qed.

(** The slice stored for a node name holds the candidate pods assigned to
    that node, in candidate order. *)
Lemma GroupByNodeName_bucket l k :
  bucket (GroupByNodeName l) k = filter (λ p, NodeName p = k) l.
Proof. unfold GroupByNodeName. by rewrite GroupByNodeName_from. Qed.

Lemma GroupByNodeName_keyed l : keyed_by_node (GroupByNodeName l).
Proof.
  intros k p. rewrite GroupByNodeName_bucket, list_elem_of_filter. tauto.
Qed.

Lemma bucket_sort_in_place m k k' :
  bucket (podsOnANode (sort_in_place k m)) k'
  = if decide (k = k')
    then SortPodsBasedOnPriorityLowToHigh (bucket (podsOnANode m) k')
    else bucket (podsOnANode m) k'.
Proof.
  unfold sort_in_place.
  destruct (podsOnANode m !! k) as [l|] eqn:Hk; simpl.
  - rewrite bucket_insert. destruct (decide (k = k')) as [<-|]; [|done].
    unfold bucket. by rewrite Hk.
  - destruct (decide (k = k')) as [<-|]; [|done].
    unfold bucket. by rewrite Hk.
Qed.

Lemma bucket_sort_in_place_perm m k k' :
  bucket (podsOnANode (sort_in_place k m)) k' ≡ₚ bucket (podsOnANode m) k'.
Proof.
  rewrite bucket_sort_in_place. destruct (decide (k = k')); [|done].
  apply Sort_perm.
Qed.

Lemma sort_in_place_keyed m k :
  keyed_by_node (podsOnANode m) → keyed_by_node (podsOnANode (sort_in_place k m)).
Proof.
  intros Hm k' p. rewrite bucket_sort_in_place_perm. apply Hm.
Qed.

(** The ordering step writes to [podsOnANode] and to nothing else. *)
Lemma sort_in_place_frame m k :
  nodes (sort_in_place k m) = nodes m
  ∧ pods (sort_in_place k m) = pods m
  ∧ podsInANamespace (sort_in_place k m) = podsInANamespace m
  ∧ nodeMap (sort_in_place k m) = nodeMap m.
Proof. unfold sort_in_place. by destruct (podsOnANode m !! k). Qed.

Lemma sorted_bucket_sort_in_place m k k' :
  SortPodsBasedOnPriorityLowToHigh (bucket (podsOnANode (sort_in_place k m)) k')
  = SortPodsBasedOnPriorityLowToHigh (bucket (podsOnANode m) k').
Proof.
  rewrite bucket_sort_in_place. destruct (decide (k = k')); [|done].
  apply Sort_idemp.
Qed.

(** The candidate pods of distinct nodes, node by node, are candidate
    pods, each counted once. *)
Lemma buckets_submseteq (names : list string) (l : list Pod) :
  NoDup names →
  names ≫= (λ k, filter (λ p, NodeName p = k) l) ⊆+ l.
Proof.
  intros Hnames. revert l.
  induction Hnames as [|k names Hk _ IH]; intros l.
  - apply submseteq_nil_l.
  - rewrite bind_cons.
    trans (filter (λ p, NodeName p = k) l ++ filter (λ p, ¬ NodeName p = k) l);
      [|by rewrite filter_app_complement].
    apply submseteq_app; [done|].
    assert (names ≫= (λ k', filter (λ p, NodeName p = k') l)
            = names ≫= (λ k', filter (λ p, NodeName p = k')
                                (filter (λ p, ¬ NodeName p = k) l))) as ->;
      [|apply IH].
    clear IH. induction names as [|k' names IH']; [done|].
    rewrite !bind_cons. f_equal.
    + rewrite list_filter_filter. apply list_filter_iff.
      intros p. split; [|tauto]. intros ->. split; [done|].
      intros ->. apply Hk. left.
    + apply IH'. intros Hin. apply Hk. by right.
Qed.

Lemma filter_submseteq_mono (P : Pod → Prop) `{!∀ p, Decision (P p)} (l k : list Pod) :
  l ⊆+ k → filter P l ⊆+ filter P k.
Proof.
  intros [k' Hk']%submseteq_Permutation.
  rewrite Hk', filter_app. by apply submseteq_inserts_r.
Qed.

Lemma submseteq_NoDup (l k : list Pod) : l ⊆+ k → NoDup k → NoDup l.
Proof.
  intros [k' Hk']%submseteq_Permutation. rewrite Hk'.
  by intros [? _]%NoDup_app.
Qed.

End Grouping.

(** ** The two loops *)

Section Loops.

Context {E : Type} `{!frameworktypes.Evictor E} `{!utils.AffinityOracle}.

Implicit Types (ctx : Context) (ns : gmap string (list Pod)) (nm : gmap string Node).
Implicit Types (m : Memory) (e : E) (t : list Event) (l : list Pod).

#[local] Abbreviation opts := {| evictions.StrategyName := PluginName |}.
#[local] Abbreviation Sort := podutil.SortPodsBasedOnPriorityLowToHigh.

Lemma scan_pods_scans ctx ns nm l e flow e' t :
  scan_pods ctx ns nm l e = (flow, e', t) → scans ctx ns nm l e flow e' t.
Proof.
  revert e flow e' t. induction l as [|pod rest IH]; intros e flow e' t; simpl.
  { intros [= <- <- <-]. constructor. }
  destruct (utils.CheckPodAffinityViolation pod ns nm) eqn:Hv.
  - destruct (frameworktypes.Filter e pod && frameworktypes.PreEvictionFilter e pod)
      eqn:Ha.
    + assert (attempted ns nm e pod = true) as Hatt
        by (unfold attempted; by rewrite Hv, Ha).
      destruct (frameworktypes.Evict ctx pod opts e) as [e1 err] eqn:Hev.
      destruct err as [err|]; simpl.
      * destruct (err_type err) eqn:HT.
        -- intros [= <- <- <-].
           replace ContinueLoop with (flow_of (err_type err)) by (by rewrite HT).
           apply scans_limit; [done|done|]. left. simpl. by rewrite HT.
        -- intros [= <- <- <-].
           replace ReturnNil with (flow_of (err_type err)) by (by rewrite HT).
           apply scans_limit; [done|done|]. right. simpl. by rewrite HT.
        -- destruct (scan_pods ctx ns nm rest e1) as [[f e2] t2] eqn:Hrest.
           intros [= <- <- <-].
           eapply scans_next; [done|done| |by apply IH].
           intros [Hl|Hl]; simpl in Hl; congruence.
      * destruct (scan_pods ctx ns nm rest e1) as [[f e2] t2] eqn:Hrest.
        intros [= <- <- <-].
        eapply scans_next; [done|done| |by apply IH].
        intros [Hl|Hl]; simpl in Hl; congruence.
    + destruct (scan_pods ctx ns nm rest e) as [[f e2] t2] eqn:Hrest.
      intros [= <- <- <-]. apply scans_skip; [|by apply IH].
      unfold attempted. by rewrite Hv, Ha.
  - destruct (scan_pods ctx ns nm rest e) as [[f e2] t2] eqn:Hrest.
    intros [= <- <- <-]. apply scans_skip; [|by apply IH].
    unfold attempted. by rewrite Hv.
Qed.

(** A limit outcome is the last thing the inner loop does. *)
Lemma scans_limit_last ctx ns nm l e flow e' t t1 pod o err t2 :
  scans ctx ns nm l e flow e' t →
  t = t1 ++ EvictCall pod o (Some err) :: t2 →
  is_limit (Some err) →
  t2 = [] ∧ flow = flow_of (err_type err) ∧ pod ∈ l
  ∧ ∃ e1, frameworktypes.Evict ctx pod o e1 = (e', Some err).
Proof.
  intros Hscan. revert t1.
  induction Hscan as [e|p rest e flow e' t Hatt Hscan IH|p rest e e1 er Hatt Hev Hlim
                      |p rest e e1 er flow e' t Hatt Hev Hlim Hscan IH];
    intros t1 Ht Herr.
  - destruct t1; discriminate.
  - destruct t1 as [|x t1]; simplify_eq/=.
    destruct (IH t1) as (-> & -> & Hin & e1 & He1); [done..|].
    split_and!; [done|done|by right|by exists e1].
  - destruct t1 as [|x [|y [|z t1]]]; simplify_eq/=.
    split_and!; [done|done|by left|by exists e].
  - destruct t1 as [|x [|y t1]]; simplify_eq/=; [by destruct Hlim|].
    destruct (IH t1) as (-> & -> & Hin & e2 & He2); [done..|].
    split_and!; [done|done|by right|by exists e2].
Qed.

(** What the inner loop asks and evicts. *)
Lemma scans_checked ctx ns nm l e flow e' t :
  scans ctx ns nm l e flow e' t →
  checked t `prefix_of` l ∧ processed t = []
  ∧ evicted t `sublist_of`
      filter (λ p, utils.CheckPodAffinityViolation p ns nm = true) (checked t).
Proof.
  induction 1 as [e|p rest e flow e' t Hatt Hscan (IH1 & IH2 & IH3)
                  |p rest e e1 er Hatt Hev Hlim
                  |p rest e e1 er flow e' t Hatt Hev Hlim Hscan (IH1 & IH2 & IH3)];
    simpl.
  - split_and!; [apply prefix_nil|done|constructor].
  - split_and!; [by apply prefix_cons|done|].
    rewrite filter_cons. case_decide; [by apply sublist_cons|done].
  - apply andb_prop in Hatt as [Hv _].
    split_and!; [apply prefix_cons, prefix_nil|done|].
    rewrite filter_cons_True by done. apply sublist_skip. constructor.
  - apply andb_prop in Hatt as [Hv _].
    split_and!; [by apply prefix_cons|done|].
    rewrite filter_cons_True by done. by apply sublist_skip.
Qed.

(** Every [Evict] call is on a flagged pod that passed both admission
    checks in the state the evictor was in. *)
Lemma scans_evict_admitted ctx ns nm l e flow e' t pod o r :
  scans ctx ns nm l e flow e' t →
  EvictCall pod o r ∈ t →
  o = opts ∧ pod ∈ l
  ∧ utils.CheckPodAffinityViolation pod ns nm = true
  ∧ ∃ e1 e2, frameworktypes.Filter e1 pod = true
             ∧ frameworktypes.PreEvictionFilter e1 pod = true
             ∧ frameworktypes.Evict ctx pod o e1 = (e2, r).
Proof.
  induction 1 as [e|p rest e flow e' t Hatt Hscan IH|p rest e e1 er Hatt Hev Hlim
                  |p rest e e1 er flow e' t Hatt Hev Hlim Hscan IH];
    intros Hin.
  - by apply elem_of_nil in Hin.
  - apply elem_of_cons in Hin as [?|Hin]; [done|].
    destruct (IH Hin) as (? & ? & ? & ?). split_and!; [done|by right|done..].
  - apply andb_prop in Hatt as [Hv [Hf Hp]%andb_prop].
    apply elem_of_cons in Hin as [?|Hin]; [done|].
    apply list_elem_of_singleton in Hin. simplify_eq.
    split_and!; [done|by left|done|by exists e, e1].
  - apply andb_prop in Hatt as [Hv [Hf Hp]%andb_prop].
    apply elem_of_cons in Hin as [?|Hin]; [done|].
    apply elem_of_cons in Hin as [?|Hin].
    + simplify_eq. split_and!; [done|by left|done|by exists e, e1].
    + destruct (IH Hin) as (? & ? & ? & ?). split_and!; [done|by right|done..].
Qed.


End Loops.

Section OuterLoop.

Context {E : Type} `{!frameworktypes.Evictor E} `{!utils.AffinityOracle}.

Implicit Types (ctx : Context) (m : Memory) (e : E) (t : list Event).
Implicit Types (todo : list Node).

#[local] Abbreviation opts := {| evictions.StrategyName := PluginName |}.
#[local] Abbreviation Sort := podutil.SortPodsBasedOnPriorityLowToHigh.
#[local] Abbreviation flagged m :=
  (λ p, utils.CheckPodAffinityViolation p (podsInANamespace m) (nodeMap m) = true).
#[local] Abbreviation slices m todo :=
  (todo ≫= λ node, podutil.bucket (podsOnANode m) (Name node)).

Lemma checked_app t1 t2 : checked (t1 ++ t2) = checked t1 ++ checked t2.
Proof. apply omap_app. Qed.

Lemma evicted_app t1 t2 : evicted (t1 ++ t2) = evicted t1 ++ evicted t2.
Proof. apply omap_app. Qed.

Lemma processed_app t1 t2 : processed (t1 ++ t2) = processed t1 ++ processed t2.
Proof. apply omap_app. Qed.

Lemma processed_node node t :
  processed (ProcessingNode node :: t) = node :: processed t.
Proof. done. Qed.

Lemma checked_node node t : checked (ProcessingNode node :: t) = checked t.
Proof. done. Qed.


Lemma evicted_elem_of pod t : pod ∈ evicted t ↔ ∃ o r, EvictCall pod o r ∈ t.
Proof.
  unfold evicted. rewrite list_elem_of_omap. split.
  - intros ([] & Hin & Heq); simplify_eq. eauto.
  - intros (o & r & Hin). by exists (EvictCall pod o r).
Qed.

(** One turn of the outer loop: the node's slice is sorted where it lies,
    the inner loop runs over it, and unless it returned the outer loop
    goes on with the nodes left. *)
Lemma node_loop_cons_inv ctx node rest m e m' e' t :
  node_loop ctx (node :: rest) m e = (m', e', t) →
  ∃ flow e1 ts,
    scans ctx (podsInANamespace m) (nodeMap m)
      (Sort (podutil.bucket (podsOnANode m) (Name node))) e flow e1 ts
    ∧ ((flow = ReturnNil ∧ m' = sort_in_place (Name node) m ∧ e' = e1
        ∧ t = ProcessingNode node :: ts)
       ∨ (flow ≠ ReturnNil
          ∧ ∃ t2, node_loop ctx rest (sort_in_place (Name node) m) e1 = (m', e', t2)
                  ∧ t = ProcessingNode node :: ts ++ t2)).
Proof.
  simpl. destruct (sort_in_place_frame m (Name node)) as (_ & _ & -> & ->).
  rewrite bucket_sort_in_place, decide_True by done.
  destruct (scan_pods _ _ _ _ _) as [[flow e1] ts] eqn:Hscan.
  apply scan_pods_scans in Hscan. intros Hrun.
  exists flow, e1, ts. split; [done|].
  destruct flow.
  - right. split; [done|].
    destruct (node_loop ctx rest _ e1) as [[m2 e2] t2]. simplify_eq. by exists t2.
  - right. split; [done|].
    destruct (node_loop ctx rest _ e1) as [[m2 e2] t2]. simplify_eq. by exists t2.
  - left. by simplify_eq.
Qed.

(** After a total-limit outcome nothing more happens. *)
Lemma node_loop_total_limit ctx todo m e m' e' t t1 pod o err t2 :
  node_loop ctx todo m e = (m', e', t) →
  t = t1 ++ EvictCall pod o (Some err) :: t2 →
  err_type err = EvictionTotalLimitError →
  t2 = [].
Proof.
  intros Hrun Ht Herr.
  assert (is_limit (Some err)) as Hlim by (right; simpl; by rewrite Herr).
  revert m e t t1 Hrun Ht.
  induction todo as [|node rest IH]; intros m e t t1 Hrun Ht.
  { simpl in Hrun. simplify_eq. by destruct t1. }
  apply node_loop_cons_inv in Hrun
    as (flow & e1 & ts & Hscan & [(-> & -> & -> & ->)|(Hflow & t2' & Hrest & ->)]);
    (destruct t1 as [|x t1]; [done|]); simplify_eq/=.
  - by eapply scans_limit_last in Hscan as (-> & _).
  - match goal with Happ : _ ++ _ = _ ++ _ |- _ =>
      apply app_eq_inv in Happ as [(k & -> & Hk)|(k & -> & ->)] end.
    + destruct k as [|y k]; simplify_eq/=.
      * by eapply (IH _ _ _ []).
      * eapply scans_limit_last in Hscan as (_ & Hf & _); [|done..].
        rewrite Herr in Hf. done.
    + by eapply IH.
Qed.

(** After a node-limit outcome on a pod of some node, what follows is the
    outer loop over the nodes after that node, started in the state that
    very call left the evictor in. *)
Lemma node_loop_node_limit ctx todo m e m' e' t t1 pod o err t2 :
  node_loop ctx todo m e = (m', e', t) →
  keyed_by_node (podsOnANode m) →
  t = t1 ++ EvictCall pod o (Some err) :: t2 →
  err_type err = EvictionNodeLimitError →
  ∃ seen node rest e1 e2,
    todo = seen ++ node :: rest
    ∧ Name node = NodeName pod
    ∧ frameworktypes.Evict ctx pod o e1 = (e2, Some err)
    ∧ node_loop ctx rest (sorted_upto (seen ++ [node]) m) e2 = (m', e', t2).
Proof.
  intros Hrun Hkey Ht Herr.
  assert (is_limit (Some err)) as Hlim by (left; simpl; by rewrite Herr).
  revert m e t t1 Hrun Hkey Ht.
  induction todo as [|node rest IH]; intros m e t t1 Hrun Hkey Ht.
  { simpl in Hrun. simplify_eq. by destruct t1. }
  apply node_loop_cons_inv in Hrun
    as (flow & e1 & ts & Hscan & [(-> & -> & -> & ->)|(Hflow & t2' & Hrest & ->)]);
    (destruct t1 as [|x t1]; [done|]); simplify_eq/=.
  - eapply scans_limit_last in Hscan as (_ & Hf & _); [|done..].
    rewrite Herr in Hf. done.
  - match goal with Happ : _ ++ _ = _ ++ _ |- _ =>
      apply app_eq_inv in Happ as [(k & -> & Hk)|(k & -> & ->)] end.
    + destruct k as [|y k]; simplify_eq/=.
      * edestruct (IH _ _ _ [] Hrest) as (seen & nd & rs & ea & eb & -> & ? & ? & ?);
          [by apply sort_in_place_keyed|done|].
        by exists (node :: seen), nd, rs, ea, eb.
      * destruct (scans_limit_last _ _ _ _ _ _ _ _ t1 pod o err k Hscan)
          as (-> & _ & Hin & ea & Hea); [done..|].
        exists [], node, rest, ea, e1. split_and!; [done| |done|done].
        symmetry. apply (Hkey (Name node) pod). by rewrite <-Sort_perm.
    + edestruct (IH _ _ _ k Hrest) as (seen & nd & rs & ea & eb & -> & ? & ? & ?);
        [by apply sort_in_place_keyed|done|].
      by exists (node :: seen), nd, rs, ea, eb.
Qed.

(** The memory a run leaves: the slices of the nodes it started on are
    sorted, everything else is as it was. *)
Lemma node_loop_memory ctx todo m e m' e' t :
  node_loop ctx todo m e = (m', e', t) → m' = sorted_upto (processed t) m.
Proof.
  revert m e t. induction todo as [|node rest IH]; intros m e t Hrun.
  { simpl in Hrun. by simplify_eq. }
  apply node_loop_cons_inv in Hrun
    as (flow & e1 & ts & Hscan & [(-> & -> & -> & ->)|(Hflow & t2' & Hrest & ->)]);
    apply scans_checked in Hscan as (_ & Hp & _).
  - simpl. by rewrite Hp.
  - simpl. rewrite processed_app, Hp. simpl. by eapply IH.
Qed.

Lemma sorted_upto_frame visited m :
  nodes (sorted_upto visited m) = nodes m
  ∧ pods (sorted_upto visited m) = pods m
  ∧ podsInANamespace (sorted_upto visited m) = podsInANamespace m
  ∧ nodeMap (sorted_upto visited m) = nodeMap m.
Proof.
  revert m. induction visited as [|node visited IH]; intros m; simpl; [done|].
  destruct (IH (sort_in_place (Name node) m)) as (-> & -> & -> & ->).
  apply sort_in_place_frame.
Qed.

Lemma bucket_sorted_upto visited m k :
  podutil.bucket (podsOnANode (sorted_upto visited m)) k
  = if decide (k ∈ Name <$> visited)
    then Sort (podutil.bucket (podsOnANode m) k)
    else podutil.bucket (podsOnANode m) k.
Proof.
  revert m. induction visited as [|node visited IH]; intros m; simpl; [done|].
  rewrite IH, sorted_bucket_sort_in_place, bucket_sort_in_place.
  destruct (decide (k ∈ Name <$> visited)) as [Hin|Hin].
  - rewrite decide_True; [done|by right].
  - destruct (decide (Name node = k)) as [<-|Hne].
    + rewrite decide_True; [done|by left].
    + rewrite decide_False; [done|].
      intros [?|?]%elem_of_cons; [congruence|done].
Qed.

Lemma slices_sort_in_place todo k m :
  slices (sort_in_place k m) todo ≡ₚ slices m todo.
Proof.
  induction todo as [|node rest IH]; [done|].
  by rewrite !bind_cons, IH, bucket_sort_in_place_perm.
Qed.


(** The pods asked about belong to the nodes of the loop; the pods evicted
    were asked about. *)
Lemma node_loop_checked ctx todo m e m' e' t :
  node_loop ctx todo m e = (m', e', t) →
  keyed_by_node (podsOnANode m) →
  (∀ q, q ∈ checked t → NodeName q ∈ Name <$> todo)
  ∧ (∀ q, q ∈ evicted t → q ∈ checked t).
Proof.
  revert m e t. induction todo as [|node rest IH]; intros m e t Hrun Hkey.
  { simpl in Hrun. simplify_eq. split; intros q Hq; by apply elem_of_nil in Hq. }
  apply node_loop_cons_inv in Hrun
    as (flow & e1 & ts & Hscan & Hcases).
  apply scans_checked in Hscan as (Hpre & _ & Hsub).
  assert (∀ q, q ∈ checked ts → NodeName q = Name node) as Hhere.
  { intros q Hq. apply (Hkey (Name node) q).
    rewrite <-Sort_perm. by eapply elem_of_prefix. }
  assert (∀ q, q ∈ evicted ts → q ∈ checked ts) as Hev.
  { intros q Hq. eapply elem_of_sublist in Hq; [|exact Hsub].
    by apply list_elem_of_filter in Hq as [_ ?]. }
  destruct Hcases as [(-> & -> & -> & ->)|(Hflow & t2' & Hrest & ->)]; simpl.
  - split; [|done]. intros q Hq. rewrite (Hhere q Hq). by left.
  - apply IH in Hrest as [IH1 IH2]; [|by apply sort_in_place_keyed].
    rewrite checked_app, evicted_app. split; intros q [Hq|Hq]%elem_of_app.
    + rewrite (Hhere q Hq). by left.
    + right. by apply IH1.
    + apply elem_of_app. left. by apply Hev.
    + apply elem_of_app. right. by apply IH2.
Qed.

(** The evicted pods are flagged pods of the slices of the loop's nodes,
    each slice entry evicted at most once per visit. *)
Lemma node_loop_evicted ctx todo m e m' e' t :
  node_loop ctx todo m e = (m', e', t) →
  evicted t ⊆+ filter (flagged m) (slices m todo).
Proof.
  revert m e t. induction todo as [|node rest IH]; intros m e t Hrun.
  { simpl in Hrun. by simplify_eq. }
  apply node_loop_cons_inv in Hrun
    as (flow & e1 & ts & Hscan & Hcases).
  apply scans_checked in Hscan as (Hpre & _ & Hsub).
  assert (evicted ts ⊆+ filter (flagged m) (podutil.bucket (podsOnANode m) (Name node)))
    as Hhere.
  { rewrite <-(Sort_perm (podutil.bucket _ _)).
    etrans; [by apply sublist_submseteq|].
    apply filter_submseteq_mono. destruct Hpre as [k ->].
    by apply submseteq_inserts_r. }
  rewrite bind_cons, filter_app.
  destruct Hcases as [(-> & -> & -> & ->)|(Hflow & t2' & Hrest & ->)]; simpl.
  - by apply submseteq_inserts_r.
  - rewrite evicted_app. apply submseteq_app; [done|].
    apply IH in Hrest.
    destruct (sort_in_place_frame m (Name node)) as (_ & _ & Hns & Hnm).
    rewrite Hns, Hnm in Hrest. by rewrite slices_sort_in_place in Hrest.
Qed.

Lemma node_loop_evict_admitted ctx todo m e m' e' t pod o r :
  node_loop ctx todo m e = (m', e', t) →
  EvictCall pod o r ∈ t →
  o = opts ∧ flagged m pod
  ∧ ∃ e1 e2, frameworktypes.Filter e1 pod = true
             ∧ frameworktypes.PreEvictionFilter e1 pod = true
             ∧ frameworktypes.Evict ctx pod o e1 = (e2, r).
Proof.
  revert m e t. induction todo as [|node rest IH]; intros m e t Hrun Hin.
  { simpl in Hrun. simplify_eq. by apply elem_of_nil in Hin. }
  apply node_loop_cons_inv in Hrun
    as (flow & e1 & ts & Hscan & Hcases).
  assert (EvictCall pod o r ∈ ts ∨
          ∃ t2, node_loop ctx rest (sort_in_place (Name node) m) e1 = (m', e', t2)
                ∧ EvictCall pod o r ∈ t2) as [Hts|(t2 & Hrest & Ht2)].
  { destruct Hcases as [(-> & -> & -> & ->)|(Hflow & t2' & Hrest & ->)].
    - apply elem_of_cons in Hin as [?|?]; [done|by left].
    - apply elem_of_cons in Hin as [?|[?|?]%elem_of_app]; [done|by left|].
      right. by exists t2'. }
  - eapply scans_evict_admitted in Hscan as (? & _ & ? & ?); done.
  - eapply IH in Hrest as (? & Hfl & ?); [|done].
    destruct (sort_in_place_frame m (Name node)) as (_ & _ & Hns & Hnm).
    rewrite Hns, Hnm in Hfl. done.
Qed.


End OuterLoop.

(** ** Runs of [Deschedule] *)

Section Runs.

Context {E : Type} `{!frameworktypes.Evictor E} `{!utils.AffinityOracle}.
Context `{!podutil.Lister}.

Implicit Types (d : RemovePodsViolatingInterPodAffinity) (ctx : Context).
Implicit Types (e : E) (t : list Event).

#[local] Abbreviation opts := {| evictions.StrategyName := PluginName |}.
#[local] Abbreviation Sort := podutil.SortPodsBasedOnPriorityLowToHigh.
#[local] Abbreviation listing d nodes :=
  (podutil.ListPodsOnNodes nodes
     (frameworktypes.GetPodsAssignedToNodeFunc (handle d)) (podFilter d)).

(** A run either fails at the listing or is the outer loop over all the
    nodes, started on the freshly built memory. *)
Lemma Deschedule_cases d ctx nodes e :
  (∃ err, (listing d nodes).2 = Some err
          ∧ status (Deschedule d ctx nodes e)
            = Some {| frameworktypes.Err :=
                        Some (fmt_Errorf ("error listing all pods: " +:+ Error err)) |}
          ∧ evictor (Deschedule d ctx nodes e) = e
          ∧ trace (Deschedule d ctx nodes e) = [])
  ∨ ((listing d nodes).2 = None
     ∧ status (Deschedule d ctx nodes e) = None
     ∧ node_loop ctx nodes (build_memory nodes (listing d nodes).1) e
       = (memory (Deschedule d ctx nodes e), evictor (Deschedule d ctx nodes e),
          trace (Deschedule d ctx nodes e))).
Proof.
  unfold Deschedule. destruct (listing d nodes) as [l [err|]]; simpl.
  - left. by exists err.
  - right. by destruct (node_loop ctx nodes _ e) as [[m' e'] t].
Qed.

Lemma sorted_upto_keyed visited m :
  keyed_by_node (podsOnANode m) → keyed_by_node (podsOnANode (sorted_upto visited m)).
Proof.
  revert m. induction visited as [|node visited IH]; intros m Hm; simpl; [done|].
  by apply IH, sort_in_place_keyed.
Qed.

(** C1.  Once an [Evict] call returns the total-limit error, the run is
    over: nothing follows that call in the trace (no further [Evict]
    call, no pod asked about, no node started on), and the status
    returned is nil, which is how a run that met no failure ends. *)
Theorem total_limit_ends_run d ctx nodes e t1 pod o err t2 :
  trace (Deschedule d ctx nodes e) = t1 ++ EvictCall pod o (Some err) :: t2 →
  err_type err = EvictionTotalLimitError →
  t2 = [] ∧ status (Deschedule d ctx nodes e) = None.
Proof.
  intros Ht Herr.
  destruct (Deschedule_cases d ctx nodes e)
    as [(err' & _ & _ & _ & Hnil)|(_ & Hst & Hrun)].
  - rewrite Hnil in Ht. by destruct t1.
  - split; [|done]. by eapply node_loop_total_limit.
Qed.

(** C2.  When an [Evict] call on a pod of node N returns the node-limit
    error, what follows in the trace is exactly the outer loop over the
    nodes that come after N in the input, started in the state that call
    left the evictor in: the rest of N's sorted slice is dropped, and the
    later nodes are processed as usual.  When N's name does not occur
    again among the later nodes, no pod of N is asked about or evicted
    any more. *)
Theorem node_limit_moves_to_next_node d ctx nodes e t1 pod o err t2 :
  trace (Deschedule d ctx nodes e) = t1 ++ EvictCall pod o (Some err) :: t2 →
  err_type err = EvictionNodeLimitError →
  ∃ seen node rest e1 e2,
    nodes = seen ++ node :: rest
    ∧ Name node = NodeName pod
    ∧ frameworktypes.Evict ctx pod o e1 = (e2, Some err)
    ∧ node_loop ctx rest
        (sorted_upto (seen ++ [node]) (build_memory nodes (listing d nodes).1)) e2
      = (memory (Deschedule d ctx nodes e), evictor (Deschedule d ctx nodes e), t2)
    ∧ (Name node ∉ Name <$> rest →
       ∀ q, q ∈ checked t2 ∨ q ∈ evicted t2 → NodeName q ≠ NodeName pod).
Proof.
  intros Ht Herr.
  destruct (Deschedule_cases d ctx nodes e)
    as [(err' & _ & _ & _ & Hnil)|(_ & Hst & Hrun)].
  { rewrite Hnil in Ht. by destruct t1. }
  pose proof (GroupByNodeName_keyed (listing d nodes).1) as Hkey.
  destruct (node_loop_node_limit _ _ _ _ _ _ _ _ _ _ _ _ Hrun Hkey Ht Herr)
    as (seen & node & rest & e1 & e2 & Hnodes & Hname & Hev & Hrest).
  exists seen, node, rest, e1, e2. split_and!; [done..|].
  intros Hfresh q Hq.
  apply node_loop_checked in Hrest as [Hc Hv]; [|by apply sorted_upto_keyed].
  assert (q ∈ checked t2) as Hq' by (destruct Hq; auto).
  apply Hc in Hq'. intros Heq. apply Hfresh. by rewrite Hname, <-Heq.
Qed.

(** C3 (as amended).  A run whose listing succeeds leaves the node list,
    the candidate pod list, the namespace grouping and the node map as
    they were; the per-node ordering step sorts the node's slice of the
    node grouping where it lies: afterwards the slice of every node the
    run started on holds its pods in sorted order, and every other slice
    is untouched. *)
Theorem Deschedule_writes_only_sorted_slices d ctx input e l :
  listing d input = (l, None) →
  nodes (memory (Deschedule d ctx input e)) = input
  ∧ pods (memory (Deschedule d ctx input e)) = l
  ∧ podsInANamespace (memory (Deschedule d ctx input e)) = podutil.GroupByNamespace l
  ∧ nodeMap (memory (Deschedule d ctx input e)) = utils.CreateNodeMap input
  ∧ ∀ k, podutil.bucket (podsOnANode (memory (Deschedule d ctx input e))) k
         = if decide (k ∈ Name <$> processed (trace (Deschedule d ctx input e)))
           then Sort (podutil.bucket (podutil.GroupByNodeName l) k)
           else podutil.bucket (podutil.GroupByNodeName l) k.
Proof.
  intros Hl.
  destruct (Deschedule_cases d ctx input e)
    as [(err' & Herr & _)|(_ & Hst & Hrun)].
  { rewrite Hl in Herr. done. }
  rewrite Hl in Hrun. simpl in Hrun.
  apply node_loop_memory in Hrun. rewrite Hrun.
  destruct (sorted_upto_frame (processed (trace (Deschedule d ctx input e)))
              (build_memory input l)) as (-> & -> & -> & ->).
  split_and!; [done..|]. intros k. apply bucket_sorted_upto.
Qed.


(** C5.  With distinct node names and distinct candidate pods, [Evict] is
    called at most once per pod in a run, only on candidate pods the
    oracle flags, and only after both admission checks passed in the
    state the evictor was in; so the number of [Evict] calls is at most
    the number of flagged candidates, and none is made when the oracle
    flags no candidate. *)
Theorem evict_at_most_once_and_only_if_flagged d ctx nodes e :
  let l := (listing d nodes).1 in
  let violates :=
    λ p, utils.CheckPodAffinityViolation p (podutil.GroupByNamespace l)
           (utils.CreateNodeMap nodes) in
  NoDup (Name <$> nodes) →
  NoDup l →
  NoDup (evicted (trace (Deschedule d ctx nodes e)))
  ∧ (∀ pod o r,
       EvictCall pod o r ∈ trace (Deschedule d ctx nodes e) →
       pod ∈ l ∧ violates pod = true
       ∧ ∃ e1 e2, frameworktypes.Filter e1 pod = true
                  ∧ frameworktypes.PreEvictionFilter e1 pod = true
                  ∧ frameworktypes.Evict ctx pod o e1 = (e2, r))
  ∧ (length (evicted (trace (Deschedule d ctx nodes e)))
     ≤ length (filter (λ p, violates p = true) l))%nat
  ∧ ((∀ p, p ∈ l → violates p = false) →
     evicted (trace (Deschedule d ctx nodes e)) = []).
Proof.
  intros l violates Hnodes Hl.
  assert (evicted (trace (Deschedule d ctx nodes e))
            ⊆+ filter (λ p, violates p = true) l) as Hsub.
  { destruct (Deschedule_cases d ctx nodes e)
      as [(err' & _ & _ & _ & ->)|(_ & Hst & Hrun)];
      [apply submseteq_nil_l|].
    apply node_loop_evicted in Hrun. etrans; [exact Hrun|].
    apply filter_submseteq_mono. simpl.
    trans ((Name <$> nodes) ≫= λ k, filter (λ p, NodeName p = k) l);
      [|by apply buckets_submseteq].
    rewrite list_fmap_bind. apply eq_subrelation; [apply _|].
    apply list_bind_ext; [|done].
    intros node. apply GroupByNodeName_bucket. }
  split_and!.
  - eapply submseteq_NoDup; [exact Hsub|]. by apply NoDup_filter.
  - intros pod o r Hin.
    assert (pod ∈ evicted (trace (Deschedule d ctx nodes e))) as Hpod
      by (apply evicted_elem_of; eauto).
    eapply elem_of_submseteq in Hpod; [|exact Hsub].
    apply list_elem_of_filter in Hpod as [Hv Hpod].
    split_and!; [done..|].
    destruct (Deschedule_cases d ctx nodes e)
      as [(err' & _ & _ & _ & Hnil)|(_ & Hst & Hrun)].
    { rewrite Hnil in Hin. by apply elem_of_nil in Hin. }
    by eapply node_loop_evict_admitted in Hrun as (_ & _ & ?).
  - by apply submseteq_length.
  - intros Hnone.
    destruct (evicted (trace (Deschedule d ctx nodes e))) as [|p k]; [done|].
    assert (p ∈ filter (λ p, violates p = true) l) as Hp
      by (eapply elem_of_submseteq; [left|exact Hsub]).
    apply list_elem_of_filter in Hp as [Hv Hp]. rewrite (Hnone p Hp) in Hv. done.
Qed.

(** C7.  When listing the candidate pods fails, [Deschedule] returns a
    non-nil status carrying the error; no node is started on, the oracle
    is not asked, [Evict] is not called and the evictor is left as it
    was. *)
Theorem listing_error_aborts_run d ctx nodes e l err :
  listing d nodes = (l, Some err) →
  status (Deschedule d ctx nodes e)
    = Some {| frameworktypes.Err :=
                Some (fmt_Errorf ("error listing all pods: " +:+ Error err)) |}
  ∧ trace (Deschedule d ctx nodes e) = []
  ∧ evictor (Deschedule d ctx nodes e) = e.
Proof.
  intros Hl. unfold Deschedule. by rewrite Hl.
Qed.

End Runs.

(** ** One node, one pod *)

Section Steps.

Context {E : Type} `{!frameworktypes.Evictor E} `{!utils.AffinityOracle}.

#[local] Abbreviation opts := {| evictions.StrategyName := PluginName |}.
#[local] Abbreviation Sort := podutil.SortPodsBasedOnPriorityLowToHigh.



End Steps.

(** ** Arguments: validation, construction, defaulting *)

Section Arguments.

Context `{!metav1.SelectorConversion}.



End Arguments.

(** C10.  Defaulting changes nothing: on an arguments object it returns the
    very same object, whatever its [Namespaces] and [LabelSelector]; and
    defaulting twice is defaulting once. *)
Theorem SetDefaults_is_identity :
  (∀ a, SetDefaults_RemovePodsViolatingInterPodAffinityArgs (ArgsObject a)
        = Some (ArgsObject a))
  ∧ (∀ obj, SetDefaults_RemovePodsViolatingInterPodAffinityArgs obj
            ≫= SetDefaults_RemovePodsViolatingInterPodAffinityArgs
            = SetDefaults_RemovePodsViolatingInterPodAffinityArgs obj).
Proof.
  assert (∀ a, SetDefaults_RemovePodsViolatingInterPodAffinityArgs (ArgsObject a)
               = Some (ArgsObject a)) as Hid.
  { intros [[ns|] [ls|]]; reflexivity. }
  split; [done|].
  intros [a|T]; [|done]. rewrite Hid. simpl. apply Hid.
Qed.

(** ** The properties at work on the test cluster *)

Section OnTheTestCluster.

Import fixture.

(** The test's only case: no limits, five pods on four nodes, two
    evictions expected. *)
Example TestInterPodAffinity_no_limits :
  evicted (trace (Deschedule (plugin [p1; p2; p3; p4; p5]) background
                    [node1; node2; node3; node4] (NewPodEvictor None None None)))
  = [p4; p5].
Proof. vm_compute. reflexivity. Qed.

(** Three nodes with one flagged pod each; the evictor evicts on the
    first, reports the node limit on the second, evicts on the third. *)
Example scenario_node_limit_on_second_node :
  trace (Deschedule (plugin [q1; q2; p4]) background [node1; node2; node4] n2_used_up)
  = [ProcessingNode node1; CheckAffinity q1; EvictCall q1 opts None;
     ProcessingNode node2; CheckAffinity q2; EvictCall q2 opts (Some node_limit_reached);
     ProcessingNode node4; CheckAffinity p4; EvictCall p4 opts None].
Proof. vm_compute. reflexivity. Qed.

(** Two nodes, the first pod evaluated meets the total limit: one call of
    [Evict], the second node is never started on. *)
Example scenario_total_limit_on_first_pod :
  trace (Deschedule (plugin [q1; p4]) background [node1; node4]
           (NewPodEvictor None None (Some 0%nat)))
  = [ProcessingNode node1; CheckAffinity q1;
     EvictCall q1 opts (Some total_limit_reached)].
Proof. vm_compute. reflexivity. Qed.

(** The four cases of the validation test. *)
Example TestValidateRemovePodsViolatingInterPodAffinityArgs :
  ValidateRemovePodsViolatingInterPodAffinityArgs include_only = None
  ∧ is_Some (ValidateRemovePodsViolatingInterPodAffinityArgs include_and_exclude)
  ∧ ValidateRemovePodsViolatingInterPodAffinityArgs good_selector = None
  ∧ is_Some (ValidateRemovePodsViolatingInterPodAffinityArgs bad_selector).
Proof. split_and!; vm_compute; eauto. Qed.

Lemma total_limit_ends_run_witness :
  trace (Deschedule (plugin [q1; p4]) background [node1; node4]
           (NewPodEvictor None None (Some 0%nat)))
  = [ProcessingNode node1; CheckAffinity q1]
    ++ EvictCall q1 opts (Some total_limit_reached) :: []
  ∧ ([] : list Event) = []
  ∧ status (Deschedule (plugin [q1; p4]) background [node1; node4]
              (NewPodEvictor None None (Some 0%nat))) = None.
Proof.
  split; [vm_compute; reflexivity|].
  apply (total_limit_ends_run (plugin [q1; p4]) background [node1; node4]
           (NewPodEvictor None None (Some 0%nat))
           [ProcessingNode node1; CheckAffinity q1] q1 opts total_limit_reached []).
  - vm_compute. reflexivity.
  - reflexivity.
Defined.

Lemma node_limit_moves_to_next_node_witness :
  ∃ seen node rest e1 e2,
    [node1; node2; node4] = seen ++ node :: rest
    ∧ Name node = NodeName q2
    ∧ frameworktypes.Evict background q2 opts e1 = (e2, Some node_limit_reached)
    ∧ node_loop background rest
        (sorted_upto (seen ++ [node])
           (build_memory [node1; node2; node4]
              (podutil.ListPodsOnNodes [node1; node2; node4]
                 (frameworktypes.GetPodsAssignedToNodeFunc (handle (plugin [q1; q2; p4])))
                 (podFilter (plugin [q1; q2; p4]))).1)) e2
      = (memory (Deschedule (plugin [q1; q2; p4]) background
                   [node1; node2; node4] n2_used_up),
         evictor (Deschedule (plugin [q1; q2; p4]) background
                    [node1; node2; node4] n2_used_up),
         [ProcessingNode node4; CheckAffinity p4; EvictCall p4 opts None])
    ∧ (Name node ∉ Name <$> rest →
       ∀ q, q ∈ checked [ProcessingNode node4; CheckAffinity p4; EvictCall p4 opts None]
            ∨ q ∈ evicted [ProcessingNode node4; CheckAffinity p4; EvictCall p4 opts None] →
            NodeName q ≠ NodeName q2).
Proof.
  apply (node_limit_moves_to_next_node (plugin [q1; q2; p4]) background
           [node1; node2; node4] n2_used_up
           [ProcessingNode node1; CheckAffinity q1; EvictCall q1 opts None;
            ProcessingNode node2; CheckAffinity q2]
           q2 opts node_limit_reached
           [ProcessingNode node4; CheckAffinity p4; EvictCall p4 opts None]).
  - vm_compute. reflexivity.
  - reflexivity.
Defined.

(** C3, as stated, fails: the pods of [n4] are listed as [p5; p4]; after
    the run the slice stored for [n4] reads [p4; p5], so the memory is not
    what was built before the loop. *)
Lemma ordering_step_reorders_the_slice :
  podutil.GroupByNodeName [p5; p4] !! "n4" = Some [p5; p4]
  ∧ podsOnANode (memory (Deschedule (plugin [p5; p4]) background [node4]
                           (NewPodEvictor None None None))) !! "n4"
    = Some [p4; p5]
  ∧ memory (Deschedule (plugin [p5; p4]) background [node4]
              (NewPodEvictor None None None))
    ≠ build_memory [node4] [p5; p4].
Proof.
  split_and!; [vm_compute; reflexivity..|].
  intros Heq. apply (f_equal (λ m, podsOnANode m !! "n4")) in Heq.
  vm_compute in Heq. discriminate Heq.
Qed.

Lemma Deschedule_writes_only_sorted_slices_witness :
  nodes (memory (Deschedule (plugin [p5; p4]) background [node4]
                   (NewPodEvictor None None None))) = [node4]
  ∧ pods (memory (Deschedule (plugin [p5; p4]) background [node4]
                    (NewPodEvictor None None None))) = [p5; p4]
  ∧ podsInANamespace (memory (Deschedule (plugin [p5; p4]) background [node4]
                                (NewPodEvictor None None None)))
    = podutil.GroupByNamespace [p5; p4]
  ∧ nodeMap (memory (Deschedule (plugin [p5; p4]) background [node4]
                       (NewPodEvictor None None None)))
    = utils.CreateNodeMap [node4]
  ∧ ∀ k, podutil.bucket
           (podsOnANode (memory (Deschedule (plugin [p5; p4]) background [node4]
                                   (NewPodEvictor None None None)))) k
         = if decide (k ∈ Name <$> processed
                            (trace (Deschedule (plugin [p5; p4]) background [node4]
                                      (NewPodEvictor None None None))))
           then podutil.SortPodsBasedOnPriorityLowToHigh
                  (podutil.bucket (podutil.GroupByNodeName [p5; p4]) k)
           else podutil.bucket (podutil.GroupByNodeName [p5; p4]) k.
Proof.
  apply (Deschedule_writes_only_sorted_slices (plugin [p5; p4]) background [node4]
           (NewPodEvictor None None None) [p5; p4]).
  vm_compute. reflexivity.
Defined.



Lemma evict_at_most_once_and_only_if_flagged_witness :
  let d := plugin [p1; p2; p3; p4; p5] in
  let input := [node1; node2; node3; node4] in
  let e := NewPodEvictor None None None in
  let l := (podutil.ListPodsOnNodes input
              (frameworktypes.GetPodsAssignedToNodeFunc (handle d)) (podFilter d)).1 in
  let violates :=
    λ p, utils.CheckPodAffinityViolation p (podutil.GroupByNamespace l)
           (utils.CreateNodeMap input) in
  NoDup (evicted (trace (Deschedule d background input e)))
  ∧ (∀ pod o r,
       EvictCall pod o r ∈ trace (Deschedule d background input e) →
       pod ∈ l ∧ violates pod = true
       ∧ ∃ e1 e2, frameworktypes.Filter e1 pod = true
                  ∧ frameworktypes.PreEvictionFilter e1 pod = true
                  ∧ frameworktypes.Evict background pod o e1 = (e2, r))
  ∧ (length (evicted (trace (Deschedule d background input e)))
     ≤ length (filter (λ p, violates p = true) l))%nat
  ∧ ((∀ p, p ∈ l → violates p = false) →
     evicted (trace (Deschedule d background input e)) = []).
Proof.
  apply (evict_at_most_once_and_only_if_flagged (plugin [p1; p2; p3; p4; p5])
           background [node1; node2; node3; node4] (NewPodEvictor None None None)).
  - refine (bool_decide_unpack _ _). vm_compute. exact I.
  - refine (bool_decide_unpack _ _). vm_compute. exact I.
Defined.

Lemma listing_error_aborts_run_witness :
  status (Deschedule broken_plugin background [node1; node4]
            (NewPodEvictor None None None))
  = Some {| frameworktypes.Err :=
              Some (fmt_Errorf
                      ("error listing all pods: "
                       +:+ Error (fmt_Errorf "informer not synced"))) |}
  ∧ trace (Deschedule broken_plugin background [node1; node4]
             (NewPodEvictor None None None)) = []
  ∧ evictor (Deschedule broken_plugin background [node1; node4]
               (NewPodEvictor None None None))
    = NewPodEvictor None None None.
Proof.
  apply (listing_error_aborts_run broken_plugin background [node1; node4]
           (NewPodEvictor None None None) [] (fmt_Errorf "informer not synced")).
  reflexivity.
Defined.



End OnTheTestCluster.

(** ** More about the two loops *)

Section TraceShape.

Context {E : Type} `{!frameworktypes.Evictor E} `{!utils.AffinityOracle}.

Implicit Types (ctx : Context) (ns : gmap string (list Pod)) (nm : gmap string Node).
Implicit Types (m : Memory) (e : E) (t : list Event) (l : list Pod) (todo : list Node).

#[local] Abbreviation opts := {| evictions.StrategyName := PluginName |}.
#[local] Abbreviation Sort := podutil.SortPodsBasedOnPriorityLowToHigh.

(** In the inner loop every [Evict] call comes right after the oracle was
    asked about the same pod, and names this plugin as the strategy. *)
Lemma scans_evict_follows_check ctx ns nm l e flow e' t t1 pod o r t2 :
  scans ctx ns nm l e flow e' t →
  t = t1 ++ EvictCall pod o r :: t2 →
  o = opts ∧ ∃ t0, t1 = t0 ++ [CheckAffinity pod].
Proof.
  intros Hscan. revert t1.
  induction Hscan as [e|p rest e flow e' t Hatt Hscan IH|p rest e e1 er Hatt Hev Hlim
                      |p rest e e1 er flow e' t Hatt Hev Hlim Hscan IH];
    intros t1 Ht.
  - by destruct t1.
  - destruct t1 as [|x t1]; simplify_eq/=.
    destruct (IH t1 eq_refl) as [-> [t0 ->]].
    split; [done|]. by exists (CheckAffinity p :: t0).
  - destruct t1 as [|x [|y [|z t1]]]; simplify_eq/=.
    split; [done|]. by exists [].
  - destruct t1 as [|x [|y t1]]; simplify_eq/=.
    + split; [done|]. by exists [].
    + destruct (IH t1 eq_refl) as [-> [t0 ->]].
      split; [done|]. by exists (CheckAffinity p :: EvictCall p opts er :: t0).
Qed.

Lemma node_loop_evict_follows_check ctx todo m e m' e' t t1 pod o r t2 :
  node_loop ctx todo m e = (m', e', t) →
  t = t1 ++ EvictCall pod o r :: t2 →
  o = opts ∧ ∃ t0, t1 = t0 ++ [CheckAffinity pod].
Proof.
  revert m e t t1. induction todo as [|node rest IH]; intros m e t t1 Hrun Ht.
  { simpl in Hrun. simplify_eq. by destruct t1. }
  apply node_loop_cons_inv in Hrun
    as (flow & e1 & ts & Hscan & [(-> & -> & -> & ->)|(Hflow & t2' & Hrest & ->)]);
    (destruct t1 as [|x t1]; [done|]); simplify_eq/=.
  - destruct (scans_evict_follows_check _ _ _ _ _ _ _ _ t1 pod o r t2 Hscan eq_refl)
      as [-> [t0 ->]].
    split; [done|]. by exists (ProcessingNode node :: t0).
  - match goal with Happ : _ ++ _ = _ ++ _ |- _ =>
      apply app_eq_inv in Happ as [(k & -> & Hk)|(k & -> & ->)] end.
    + destruct k as [|y k]; simplify_eq/=.
      * destruct (IH _ _ _ [] Hrest eq_refl) as [_ [t0 Ht0]]. by destruct t0.
      * destruct (scans_evict_follows_check _ _ _ _ _ _ _ _ t1 pod o r k Hscan eq_refl)
          as [-> [t0 ->]].
        split; [done|]. by exists (ProcessingNode node :: t0).
    + destruct (IH _ _ _ k Hrest eq_refl) as [-> [t0 ->]].
      split; [done|]. exists (ProcessingNode node :: ts ++ t0).
      simpl. by rewrite app_assoc.
Qed.

(** Replaying a trace. *)
Lemma replay_app ctx t1 t2 e :
  replay ctx (t1 ++ t2) e = replay ctx t1 e ≫= replay ctx t2.
Proof.
  revert e. induction t1 as [|ev t1 IH]; intros e; [done|].
  destruct ev as [node|pod|pod o r]; simpl; [apply IH..|].
  destruct (frameworktypes.Evict ctx pod o e) as [e1 r'].
  destruct (decide (r' = r)); [apply IH|done].
Qed.

Lemma scans_replay ctx ns nm l e flow e' t :
  scans ctx ns nm l e flow e' t → replay ctx t e = Some e'.
Proof.
  induction 1 as [e|p rest e flow e' t Hatt Hscan IH|p rest e e1 er Hatt Hev Hlim
                  |p rest e e1 er flow e' t Hatt Hev Hlim Hscan IH]; simpl.
  - done.
  - done.
  - rewrite Hev. by rewrite decide_True.
  - rewrite Hev. by rewrite decide_True.
Qed.

Lemma node_loop_replay ctx todo m e m' e' t :
  node_loop ctx todo m e = (m', e', t) → replay ctx t e = Some e'.
Proof.
  revert m e t. induction todo as [|node rest IH]; intros m e t Hrun.
  { simpl in Hrun. by simplify_eq. }
  apply node_loop_cons_inv in Hrun
    as (flow & e1 & ts & Hscan & [(-> & -> & -> & ->)|(Hflow & t2' & Hrest & ->)]);
    apply scans_replay in Hscan; simpl.
  - done.
  - rewrite replay_app, Hscan. simpl. by eapply IH.
Qed.

(** How the inner loop can end: either it has asked about every pod and met
    no limit, or the last thing it did was an [Evict] call that returned a
    limit error, and that error decides where control goes. *)
Lemma scans_exits ctx ns nm l e flow e' t :
  scans ctx ns nm l e flow e' t →
  (flow = LoopDone ∧ checked t = l
   ∧ ∀ pod o r, EvictCall pod o r ∈ t → ¬ is_limit r)
  ∨ (∃ t0 pod err,
       t = t0 ++ [EvictCall pod opts (Some err)]
       ∧ is_limit (Some err) ∧ flow = flow_of (err_type err)).
Proof.
  induction 1 as [e|p rest e flow e' t Hatt Hscan IH|p rest e e1 er Hatt Hev Hlim
                  |p rest e e1 er flow e' t Hatt Hev Hlim Hscan IH].
  - left. split_and!; [done..|]. intros pod o r Hin. by apply elem_of_nil in Hin.
  - destruct IH as [(-> & Hc & Hno)|(t0 & pod & err & -> & Hl & ->)].
    + left. split_and!; [done|simpl; by f_equal|].
      intros pod o r [?|Hin]%elem_of_cons; [done|by eapply Hno].
    + right. by exists (CheckAffinity p :: t0), pod, err.
  - right. by exists [CheckAffinity p], p, er.
  - destruct IH as [(-> & Hc & Hno)|(t0 & pod & err & -> & Hl & ->)].
    + left. split_and!; [done|simpl; by f_equal|].
      intros pod o r [?|[?|Hin]%elem_of_cons]%elem_of_cons;
        [done|by simplify_eq|by eapply Hno].
    + right. by exists (CheckAffinity p :: EvictCall p opts er :: t0), pod, err.
Qed.

(** Telling from a trace whether the run returned early. *)
Lemma ends_on_total_limit_cons ev ev' t :
  ends_on_total_limit (ev :: ev' :: t) = ends_on_total_limit (ev' :: t).
Proof. done. Qed.

Lemma ends_on_total_limit_app t1 t2 :
  t2 ≠ [] → ends_on_total_limit (t1 ++ t2) = ends_on_total_limit t2.
Proof.
  intros Ht2. unfold ends_on_total_limit.
  destruct t2 as [|ev t2] using rev_ind; [done|].
  by rewrite app_assoc, !last_snoc.
Qed.

Lemma scans_ends_on_total_limit ctx ns nm l e flow e' t ev :
  scans ctx ns nm l e flow e' t →
  ends_on_total_limit [ev] = false →
  ends_on_total_limit (ev :: t) = bool_decide (flow = ReturnNil).
Proof.
  intros Hscan. revert ev.
  induction Hscan as [e|p rest e flow e' t Hatt Hscan IH|p rest e e1 er Hatt Hev Hlim
                      |p rest e e1 er flow e' t Hatt Hev Hlim Hscan IH];
    intros ev Hev'.
  - by rewrite Hev'.
  - rewrite ends_on_total_limit_cons. by apply IH.
  - rewrite !ends_on_total_limit_cons. unfold ends_on_total_limit. simpl.
    destruct Hlim as [Hl|Hl]; simpl in Hl; simplify_eq; by rewrite Hl.
  - rewrite !ends_on_total_limit_cons. apply IH.
    unfold ends_on_total_limit. simpl. destruct er as [er|]; [|done].
    apply bool_decide_eq_false_2. intros Htot. apply Hlim. right. simpl. by rewrite Htot.
Qed.

Lemma node_loop_cons_ends ctx node rest m e :
  ∃ flow e1 ts,
    scans ctx (podsInANamespace m) (nodeMap m)
      (Sort (podutil.bucket (podsOnANode m) (Name node))) e flow e1 ts
    ∧ ends_on_total_limit (ProcessingNode node :: ts) = bool_decide (flow = ReturnNil)
    ∧ node_loop ctx (node :: rest) m e
      = if bool_decide (flow = ReturnNil)
        then (sort_in_place (Name node) m, e1, ProcessingNode node :: ts)
        else (let '(m2, e2, t2) := node_loop ctx rest (sort_in_place (Name node) m) e1 in
              (m2, e2, ProcessingNode node :: ts ++ t2)).
Proof.
  destruct (node_loop ctx (node :: rest) m e) as [[m' e'] t] eqn:Hrun.
  apply node_loop_cons_inv in Hrun
    as (flow & e1 & ts & Hscan & Hcases).
  exists flow, e1, ts. split; [done|]. split.
  { by eapply scans_ends_on_total_limit. }
  destruct Hcases as [(-> & -> & -> & ->)|(Hflow & t2' & Hrest & ->)].
  - by rewrite bool_decide_eq_true_2.
  - rewrite bool_decide_eq_false_2 by done. by rewrite Hrest.
Qed.

End TraceShape.

Section QuietRuns.

Context {E : Type} `{!frameworktypes.Evictor E} `{!utils.AffinityOracle}.

Implicit Types (ctx : Context) (ns : gmap string (list Pod)) (nm : gmap string Node).
Implicit Types (m : Memory) (e : E) (t : list Event) (l : list Pod) (todo : list Node).

#[local] Abbreviation opts := {| evictions.StrategyName := PluginName |}.
#[local] Abbreviation Sort := podutil.SortPodsBasedOnPriorityLowToHigh.

Lemma filter_none (P : Pod → Prop) `{!∀ p, Decision (P p)} l :
  (∀ p, p ∈ l → ¬ P p) → filter P l = [].
Proof.
  induction l as [|p l IH]; intros Hl; [done|].
  rewrite filter_cons_False by (apply Hl; left).
  apply IH. intros q Hq. apply Hl. by right.
Qed.

(** The ordering step on a missing key or an empty slice writes nothing. *)
Lemma sort_in_place_empty m k :
  podutil.bucket (podsOnANode m) k = [] → sort_in_place k m = m.
Proof.
  unfold sort_in_place, podutil.bucket.
  destruct (podsOnANode m !! k) as [l'|] eqn:Hk; simpl; [|done].
  intros ->. destruct m as [n p pn po nmap]. simpl in *. f_equal.
  by apply insert_id.
Qed.

Lemma node_loop_empty_slices ctx todo m e :
  (∀ node, node ∈ todo → podutil.bucket (podsOnANode m) (Name node) = []) →
  node_loop ctx todo m e = (m, e, ProcessingNode <$> todo).
Proof.
  induction todo as [|node rest IH]; intros Hempty; [done|].
  simpl. rewrite sort_in_place_empty by (apply Hempty; left).
  rewrite (Hempty node) by left. simpl.
  rewrite IH; [done|]. intros n Hn. apply Hempty. by right.
Qed.

(** An inner loop in which no pod is both flagged and admitted only asks. *)
Lemma scan_pods_none_attempted ctx ns nm l e :
  (∀ p, p ∈ l → attempted ns nm e p = false) →
  scan_pods ctx ns nm l e = (LoopDone, e, CheckAffinity <$> l).
Proof.
  induction l as [|p l IH]; intros Hl; [done|].
  assert (attempted ns nm e p = false) as Hp by (apply Hl; left).
  unfold attempted in Hp. simpl.
  rewrite IH by (intros q Hq; apply Hl; by right).
  destruct (utils.CheckPodAffinityViolation p ns nm); [|done].
  simpl in Hp. by rewrite Hp.
Qed.

Lemma node_loop_none_attempted ctx todo m e :
  (∀ node p, node ∈ todo → p ∈ podutil.bucket (podsOnANode m) (Name node) →
             attempted (podsInANamespace m) (nodeMap m) e p = false) →
  node_loop ctx todo m e
  = (sorted_upto todo m, e,
     todo ≫= λ node,
       ProcessingNode node
         :: (CheckAffinity <$> Sort (podutil.bucket (podsOnANode m) (Name node)))).
Proof.
  revert m. induction todo as [|node rest IH]; intros m Hnone; [done|].
  simpl. destruct (sort_in_place_frame m (Name node)) as (_ & _ & Hns & Hnm).
  rewrite Hns, Hnm, bucket_sort_in_place, decide_True by done.
  rewrite scan_pods_none_attempted.
  2:{ intros p Hp. apply (Hnone node p); [left|]. by rewrite <-(Sort_perm (podutil.bucket _ _)). }
  rewrite IH.
  2:{ intros n p Hn Hp. rewrite Hns, Hnm. apply (Hnone n p); [by right|].
      by rewrite <-(bucket_sort_in_place_perm m (Name node) (Name n)). }
  assert (rest ≫= (λ n, ProcessingNode n
                       :: (CheckAffinity <$>
                           Sort (podutil.bucket
                                   (podsOnANode (sort_in_place (Name node) m)) (Name n))))
          = rest ≫= (λ n, ProcessingNode n
                         :: (CheckAffinity <$>
                             Sort (podutil.bucket (podsOnANode m) (Name n))))) as ->.
  { apply list_bind_ext; [|done]. intros n. by rewrite sorted_bucket_sort_in_place. }
  done.
Qed.

(** The nodes are started on in input order, and all of them unless the run
    returned early. *)
Lemma node_loop_processed ctx todo m e m' e' t :
  node_loop ctx todo m e = (m', e', t) →
  processed t `prefix_of` todo
  ∧ (ends_on_total_limit t = false → processed t = todo).
Proof.
  revert m e t. induction todo as [|node rest IH]; intros m e t Hrun.
  { simpl in Hrun. by simplify_eq. }
  apply node_loop_cons_inv in Hrun
    as (flow & e1 & ts & Hscan & Hcases).
  pose proof (scans_checked _ _ _ _ _ _ _ _ Hscan) as (_ & Hp & _).
  pose proof (scans_ends_on_total_limit _ _ _ _ _ _ _ _ (ProcessingNode node) Hscan eq_refl)
    as Hends.
  destruct Hcases as [(-> & -> & -> & ->)|(Hflow & t2' & Hrest & ->)].
  - rewrite processed_node, Hp. split; [apply prefix_cons, prefix_nil|].
    rewrite Hends. by rewrite bool_decide_eq_true_2.
  - apply IH in Hrest as [IH1 IH2].
    rewrite processed_node, processed_app, Hp. simpl.
    split; [by apply prefix_cons|]. intros Hend. f_equal. apply IH2.
    destruct t2' as [|ev t2']; [done|].
    rewrite app_comm_cons, ends_on_total_limit_app in Hend; done.
Qed.

(** The pods asked about, counted with repetitions, are pods of the slices
    of the loop's nodes. *)
Lemma node_loop_checked_slices ctx todo m e m' e' t :
  node_loop ctx todo m e = (m', e', t) →
  checked t ⊆+ todo ≫= λ node, podutil.bucket (podsOnANode m) (Name node).
Proof.
  revert m e t. induction todo as [|node rest IH]; intros m e t Hrun.
  { simpl in Hrun. by simplify_eq. }
  apply node_loop_cons_inv in Hrun
    as (flow & e1 & ts & Hscan & Hcases).
  apply scans_checked in Hscan as (Hpre & _ & _).
  assert (checked ts ⊆+ podutil.bucket (podsOnANode m) (Name node)) as Hhere.
  { rewrite <-(Sort_perm (podutil.bucket _ _)). destruct Hpre as [k ->].
    by apply submseteq_inserts_r. }
  rewrite bind_cons.
  destruct Hcases as [(-> & -> & -> & ->)|(Hflow & t2' & Hrest & ->)];
    rewrite checked_node.
  - by apply submseteq_inserts_r.
  - rewrite checked_app. apply submseteq_app; [done|].
    apply IH in Hrest. etrans; [exact Hrest|].
    apply Permutation_submseteq. clear.
    induction rest as [|n rest IH]; [done|].
    by rewrite !bind_cons, IH, bucket_sort_in_place_perm.
Qed.

(** The loops hand the context on and do nothing else with it. *)
Lemma scan_pods_context ctx1 ctx2 ns nm l e :
  (∀ pod o e1, frameworktypes.Evict ctx1 pod o e1 = frameworktypes.Evict ctx2 pod o e1) →
  scan_pods ctx1 ns nm l e = scan_pods ctx2 ns nm l e.
Proof.
  intros Hsame. revert e. induction l as [|p l IH]; intros e; [done|].
  simpl. rewrite Hsame.
  destruct (utils.CheckPodAffinityViolation p ns nm); [|by rewrite IH].
  destruct (_ && _); [|by rewrite IH].
  destruct (frameworktypes.Evict ctx2 p opts e) as [e1 err]. by rewrite IH.
Qed.

Lemma node_loop_context ctx1 ctx2 todo m e :
  (∀ pod o e1, frameworktypes.Evict ctx1 pod o e1 = frameworktypes.Evict ctx2 pod o e1) →
  node_loop ctx1 todo m e = node_loop ctx2 todo m e.
Proof.
  intros Hsame. revert m e. induction todo as [|node rest IH]; intros m e; [done|].
  simpl. rewrite (scan_pods_context ctx1 ctx2) by done.
  destruct (scan_pods ctx2 _ _ _ e) as [[flow e1] ts].
  by rewrite IH.
Qed.

End QuietRuns.

(** ** More about runs of [Deschedule] *)

Section MoreRuns.

Context {E : Type} `{!frameworktypes.Evictor E} `{!utils.AffinityOracle}.
Context `{!podutil.Lister}.

Implicit Types (d : RemovePodsViolatingInterPodAffinity) (ctx : Context).
Implicit Types (m : Memory) (e : E) (t : list Event).

#[local] Abbreviation opts := {| evictions.StrategyName := PluginName |}.
#[local] Abbreviation Sort := podutil.SortPodsBasedOnPriorityLowToHigh.
#[local] Abbreviation listing d nodes :=
  (podutil.ListPodsOnNodes nodes
     (frameworktypes.GetPodsAssignedToNodeFunc (handle d)) (podFilter d)).

(** X1.  The nodes are started on in the order of the input list, none is
    skipped, and the run reaches the end of the list unless the last thing
    it did was an [Evict] call that returned the total-limit error: a
    node-limit outcome or any other error never keeps a later node from
    being started on. *)
Theorem nodes_started_in_input_order d ctx nodes e :
  processed (trace (Deschedule d ctx nodes e)) `prefix_of` nodes
  ∧ ((listing d nodes).2 = None →
     ends_on_total_limit (trace (Deschedule d ctx nodes e)) = false →
     processed (trace (Deschedule d ctx nodes e)) = nodes).
Proof.
  destruct (Deschedule_cases d ctx nodes e)
    as [(err' & Herr & _ & _ & ->)|(_ & Hst & Hrun)].
  - split; [apply prefix_nil|]. intros Hnone. by rewrite Hnone in Herr.
  - apply node_loop_processed in Hrun as [Hpre Hall]. by split.
Qed.

(** X2.  Every [Evict] call of a run comes right after the oracle was asked
    about the very same pod, and is made under the strategy name that
    [Name] returns. *)
Theorem evict_follows_check_under_plugin_name d ctx nodes e t1 pod o r t2 :
  trace (Deschedule d ctx nodes e) = t1 ++ EvictCall pod o r :: t2 →
  evictions.StrategyName o = Plugin_Name d
  ∧ ∃ t0, t1 = t0 ++ [CheckAffinity pod].
Proof.
  intros Ht.
  destruct (Deschedule_cases d ctx nodes e)
    as [(err' & _ & _ & _ & Hnil)|(_ & Hst & Hrun)].
  { rewrite Hnil in Ht. by destruct t1. }
  destruct (node_loop_evict_follows_check _ _ _ _ _ _ _ _ _ _ _ _ Hrun Ht) as [-> Ht0].
  by split.
Qed.

(** X3.  The evictor is moved on by the recorded [Evict] calls and by
    nothing else: making the calls of the trace again, in order, from the
    state the run started in, meets the recorded outcome at every call and
    ends in the state the run left the evictor in. *)
Theorem trace_replays_to_final_evictor d ctx nodes e :
  replay ctx (trace (Deschedule d ctx nodes e)) e
  = Some (evictor (Deschedule d ctx nodes e)).
Proof.
  destruct (Deschedule_cases d ctx nodes e)
    as [(err' & _ & _ & -> & ->)|(_ & Hst & Hrun)]; [done|].
  by eapply node_loop_replay.
Qed.

(** X4.  When none of the listed pods is assigned to a node of the list
    (every lookup in the node grouping misses), the run starts on every
    node and does nothing else: the oracle is not asked, [Evict] is not
    called, the evictor and the groupings are left as they were, and the
    status is nil. *)
Theorem no_candidates_on_listed_nodes d ctx nodes e l :
  listing d nodes = (l, None) →
  (∀ p, p ∈ l → NodeName p ∉ Name <$> nodes) →
  trace (Deschedule d ctx nodes e) = ProcessingNode <$> nodes
  ∧ evictor (Deschedule d ctx nodes e) = e
  ∧ memory (Deschedule d ctx nodes e) = build_memory nodes l
  ∧ status (Deschedule d ctx nodes e) = None.
Proof.
  intros Hl Hmiss. unfold Deschedule. rewrite Hl.
  rewrite node_loop_empty_slices; [done|].
  intros node Hnode. simpl. rewrite GroupByNodeName_bucket.
  apply filter_none. intros p Hp Heq. apply (Hmiss p Hp).
  rewrite Heq. by apply list_elem_of_fmap_2.
Qed.

(** X5.  When, in the state the evictor starts in, no listed pod is both
    flagged by the oracle and admitted by the two filters, the run starts
    on every node, asks the oracle about every pod of every node's sorted
    slice, never calls [Evict] and leaves the evictor as it was. *)
Theorem nothing_attempted_leaves_evictor_alone d ctx nodes e l :
  listing d nodes = (l, None) →
  (∀ p, p ∈ l →
     attempted (podutil.GroupByNamespace l) (utils.CreateNodeMap nodes) e p = false) →
  trace (Deschedule d ctx nodes e)
  = (nodes ≫= λ node,
       ProcessingNode node
         :: (CheckAffinity <$>
             Sort (podutil.bucket (podutil.GroupByNodeName l) (Name node))))
  ∧ evictor (Deschedule d ctx nodes e) = e
  ∧ status (Deschedule d ctx nodes e) = None.
Proof.
  intros Hl Hnone. unfold Deschedule. rewrite Hl.
  rewrite node_loop_none_attempted; [done|].
  intros node p _. simpl. rewrite GroupByNodeName_bucket.
  intros [_ Hp]%list_elem_of_filter. by apply Hnone.
Qed.

Lemma node_loop_cons_eq ctx node rest m e :
  ends_on_total_limit
    (ProcessingNode node
       :: (scan_pods ctx (podsInANamespace m) (nodeMap m)
             (Sort (podutil.bucket (podsOnANode m) (Name node))) e).2)
  = bool_decide
      ((scan_pods ctx (podsInANamespace m) (nodeMap m)
          (Sort (podutil.bucket (podsOnANode m) (Name node))) e).1.1 = ReturnNil)
  ∧ node_loop ctx (node :: rest) m e
    = (let '(flow, e1, ts) :=
         scan_pods ctx (podsInANamespace m) (nodeMap m)
           (Sort (podutil.bucket (podsOnANode m) (Name node))) e in
       if bool_decide (flow = ReturnNil)
       then (sort_in_place (Name node) m, e1, ProcessingNode node :: ts)
       else (let '(m2, e2, t2) := node_loop ctx rest (sort_in_place (Name node) m) e1 in
             (m2, e2, ProcessingNode node :: ts ++ t2))).
Proof.
  simpl. destruct (sort_in_place_frame m (Name node)) as (_ & _ & -> & ->).
  rewrite bucket_sort_in_place, decide_True by done.
  destruct (scan_pods _ _ _ _ _) as [[flow e1] ts] eqn:Hscan. simpl.
  split.
  - apply scan_pods_scans in Hscan. by eapply scans_ends_on_total_limit.
  - by destruct flow.
Qed.

(** X6.  The outer loop over a list of nodes cut in two is the loop over
    the first part followed, unless that one returned on a total-limit
    outcome, by the loop over the second part, started on the memory and
    in the evictor state the first part left. *)
Theorem node_loop_app ctx (a b : list Node) m e :
  node_loop ctx (a ++ b) m e
  = (let '(m1, e1, t1) := node_loop ctx a m e in
     if ends_on_total_limit t1 then (m1, e1, t1)
     else (let '(m2, e2, t2) := node_loop ctx b m1 e1 in (m2, e2, t1 ++ t2))).
Proof.
  revert m e. induction a as [|node a IH]; intros m e.
  { simpl. by destruct (node_loop ctx b m e) as [[m2 e2] t2]. }
  change ((node :: a) ++ b) with (node :: (a ++ b)).
  destruct (node_loop_cons_eq ctx node (a ++ b) m e) as [Hends ->].
  destruct (node_loop_cons_eq ctx node a m e) as [_ ->].
  destruct (scan_pods _ _ _ _ _) as [[flow e1] ts]. simpl in Hends.
  destruct (bool_decide (flow = ReturnNil)).
  { by rewrite Hends. }
  rewrite IH.
  destruct (node_loop ctx a _ e1) as [[ma ea] ta].
  assert (ends_on_total_limit (ProcessingNode node :: ts ++ ta) = ends_on_total_limit ta)
    as ->.
  { destruct ta as [|ev ta]; [by rewrite app_nil_r|].
    by rewrite app_comm_cons, ends_on_total_limit_app. }
  destruct (ends_on_total_limit ta); [done|].
  destruct (node_loop ctx b ma ea) as [[mb eb] tb].
  by rewrite app_comm_cons, app_assoc.
Qed.

(** X7.  [Deschedule] hands its context on to [Evict] and does nothing else
    with it: under two contexts on which [Evict] behaves alike the runs are
    the same, status, memory, evictor and trace. *)
Theorem Deschedule_reads_context_only_through_Evict d ctx1 ctx2 nodes e :
  (∀ pod o e1, frameworktypes.Evict ctx1 pod o e1 = frameworktypes.Evict ctx2 pod o e1) →
  Deschedule d ctx1 nodes e = Deschedule d ctx2 nodes e.
Proof.
  intros Hsame. unfold Deschedule.
  destruct (listing d nodes) as [l [err|]]; [done|].
  by rewrite (node_loop_context ctx1 ctx2).
Qed.

(** X8.  With distinct node names and distinct listed pods, the oracle is
    asked about a pod at most once in a run, and only about listed pods
    that are assigned to a node of the list; so it is asked at most as
    often as there are listed pods. *)
Theorem oracle_asked_once_per_candidate d ctx nodes e :
  NoDup (Name <$> nodes) →
  NoDup (listing d nodes).1 →
  NoDup (checked (trace (Deschedule d ctx nodes e)))
  ∧ (∀ p, p ∈ checked (trace (Deschedule d ctx nodes e)) →
          p ∈ (listing d nodes).1 ∧ NodeName p ∈ Name <$> nodes)
  ∧ (length (checked (trace (Deschedule d ctx nodes e)))
     ≤ length (listing d nodes).1)%nat.
Proof.
  intros Hnodes Hl.
  destruct (Deschedule_cases d ctx nodes e)
    as [(err' & _ & _ & _ & ->)|(_ & Hst & Hrun)].
  { split_and!; [constructor| |simpl; lia].
    intros p Hp. by apply elem_of_nil in Hp. }
  assert (checked (trace (Deschedule d ctx nodes e)) ⊆+ (listing d nodes).1) as Hsub.
  { etrans; [by eapply node_loop_checked_slices|]. simpl.
    trans ((Name <$> nodes) ≫= λ k, filter (λ p, NodeName p = k) (listing d nodes).1);
      [|by apply buckets_submseteq].
    rewrite list_fmap_bind. apply eq_subrelation; [apply _|].
    apply list_bind_ext; [|done].
    intros node. apply GroupByNodeName_bucket. }
  split_and!.
  - by eapply submseteq_NoDup.
  - intros p Hp. split; [by eapply elem_of_submseteq|].
    eapply node_loop_checked in Hrun as [Hc _]; [by apply Hc|].
    apply GroupByNodeName_keyed.
  - by apply submseteq_length.
Qed.

(** X9.  However the inner loop over a node's pods ends, it ends in one of
    two ways: it has asked the oracle about every pod and no [Evict] call
    returned a limit error; or its last step was an [Evict] call that
    returned the node-limit or the total-limit error, and control goes
    where that error says (on to the next node, or out of [Deschedule]). *)
Theorem inner_loop_exits ctx (ns : gmap string (list Pod)) (nm : gmap string Node)
    (l : list Pod) e :
  ((scan_pods ctx ns nm l e).1.1 = LoopDone
   ∧ checked (scan_pods ctx ns nm l e).2 = l
   ∧ ∀ pod o r, EvictCall pod o r ∈ (scan_pods ctx ns nm l e).2 → ¬ is_limit r)
  ∨ (∃ t0 pod err,
       (scan_pods ctx ns nm l e).2 = t0 ++ [EvictCall pod opts (Some err)]
       ∧ is_limit (Some err)
       ∧ (scan_pods ctx ns nm l e).1.1 = flow_of (err_type err)).
Proof.
  destruct (scan_pods ctx ns nm l e) as [[flow e'] t] eqn:Hscan. simpl.
  apply scan_pods_scans in Hscan. by eapply scans_exits.
Qed.

End MoreRuns.

Section MoreArguments.

Context `{!metav1.SelectorConversion}.


End MoreArguments.

Section NoLimit.

Context {E : Type} `{!frameworktypes.Evictor E} `{!utils.AffinityOracle}.
Context `{!podutil.Lister}.

Implicit Types (d : RemovePodsViolatingInterPodAffinity) (ctx : Context).
Implicit Types (m : Memory) (e : E) (t : list Event).

#[local] Abbreviation opts := {| evictions.StrategyName := PluginName |}.
#[local] Abbreviation Sort := podutil.SortPodsBasedOnPriorityLowToHigh.
#[local] Abbreviation listing d nodes :=
  (podutil.ListPodsOnNodes nodes
     (frameworktypes.GetPodsAssignedToNodeFunc (handle d)) (podFilter d)).




End NoLimit.

(** ** These properties on the test cluster *)

Section MoreOnTheTestCluster.

Import fixture.

Lemma evict_follows_check_under_plugin_name_witness :
  evictions.StrategyName opts = Plugin_Name (plugin [q1; q2; p4])
  ∧ ∃ t0, [ProcessingNode node1; CheckAffinity q1; EvictCall q1 opts None;
           ProcessingNode node2; CheckAffinity q2]
          = t0 ++ [CheckAffinity q2].
Proof.
  apply (evict_follows_check_under_plugin_name (plugin [q1; q2; p4]) background
           [node1; node2; node4] n2_used_up
           [ProcessingNode node1; CheckAffinity q1; EvictCall q1 opts None;
            ProcessingNode node2; CheckAffinity q2]
           q2 opts (Some node_limit_reached)
           [ProcessingNode node4; CheckAffinity p4; EvictCall p4 opts None]).
  vm_compute. reflexivity.
Defined.

Lemma no_candidates_on_listed_nodes_witness :
  trace (Deschedule scripted.stray_plugin background [node1; node2] (NewPodEvictor None None None))
  = ProcessingNode <$> [node1; node2]
  ∧ evictor (Deschedule scripted.stray_plugin background [node1; node2]
               (NewPodEvictor None None None))
    = NewPodEvictor None None None
  ∧ memory (Deschedule scripted.stray_plugin background [node1; node2]
              (NewPodEvictor None None None))
    = build_memory [node1; node2] [p4; p5; p4; p5]
  ∧ status (Deschedule scripted.stray_plugin background [node1; node2]
              (NewPodEvictor None None None)) = None.
Proof.
  apply (no_candidates_on_listed_nodes scripted.stray_plugin background [node1; node2]
           (NewPodEvictor None None None) [p4; p5; p4; p5]).
  - vm_compute. reflexivity.
  - apply Forall_forall. refine (bool_decide_unpack _ _). vm_compute. exact I.
Defined.

Lemma nothing_attempted_leaves_evictor_alone_witness :
  trace (Deschedule (plugin [p1; p2]) background [node1; node2]
           (NewPodEvictor None None None))
  = ([node1; node2] ≫= λ node,
       ProcessingNode node
         :: (CheckAffinity <$>
             podutil.SortPodsBasedOnPriorityLowToHigh
               (podutil.bucket (podutil.GroupByNodeName [p1; p2]) (Name node))))
  ∧ evictor (Deschedule (plugin [p1; p2]) background [node1; node2]
               (NewPodEvictor None None None))
    = NewPodEvictor None None None
  ∧ status (Deschedule (plugin [p1; p2]) background [node1; node2]
              (NewPodEvictor None None None)) = None.
Proof.
  apply (nothing_attempted_leaves_evictor_alone (plugin [p1; p2]) background
           [node1; node2] (NewPodEvictor None None None) [p1; p2]).
  - vm_compute. reflexivity.
  - apply Forall_forall. refine (bool_decide_unpack _ _). vm_compute. exact I.
Defined.

Lemma Deschedule_reads_context_only_through_Evict_witness :
  @Deschedule scripted.Script scripted.evictor oracle lister
    (plugin [q1; p4; p5]) background [node1; node4]
    {| scripted.outcomes := [None; Some node_limit_reached] |}
  = @Deschedule scripted.Script scripted.evictor oracle lister
      (plugin [q1; p4; p5]) cancelled [node1; node4]
      {| scripted.outcomes := [None; Some node_limit_reached] |}.
Proof.
  apply (@Deschedule_reads_context_only_through_Evict
           scripted.Script scripted.evictor oracle lister
           (plugin [q1; p4; p5]) background cancelled [node1; node4]
           {| scripted.outcomes := [None; Some node_limit_reached] |}).
  intros pod o e1. reflexivity.
Defined.

Lemma oracle_asked_once_per_candidate_witness :
  let d := plugin [p1; p2; p3; p4; p5] in
  let input := [node1; node2; node3; node4] in
  let e := NewPodEvictor None None None in
  let l := (podutil.ListPodsOnNodes input
              (frameworktypes.GetPodsAssignedToNodeFunc (handle d)) (podFilter d)).1 in
  NoDup (checked (trace (Deschedule d background input e)))
  ∧ (∀ p, p ∈ checked (trace (Deschedule d background input e)) →
          p ∈ l ∧ NodeName p ∈ Name <$> input)
  ∧ (length (checked (trace (Deschedule d background input e))) ≤ length l)%nat.
Proof.
  apply (oracle_asked_once_per_candidate (plugin [p1; p2; p3; p4; p5])
           background [node1; node2; node3; node4] (NewPodEvictor None None None)).
  - refine (bool_decide_unpack _ _). vm_compute. exact I.
  - refine (bool_decide_unpack _ _). vm_compute. exact I.
Defined.


End MoreOnTheTestCluster.
